(** * ilist: intrusive doubly linked lists

    A shallow embedding of [ilist.go] (package [ilist]) and the properties
    of its [List] container.

    Go objects live in a store.  A node pointer [*T] is either nil or the
    address of a node; a list pointer [*List] is the address of a [List]
    record.  Every method of the package is a computation over that store
    which either returns or panics (a nil pointer dereference); the loop of
    [Len] additionally runs on fuel. *)

From Stdlib Require Import ZArith Lia.
From stdpp Require Import base option list gmap.

(** ** Pointers *)

(** Address of a node object. *)
Definition loc := positive.

(** A Go [*T]: [None] is nil. *)
Definition ptr := option loc.

(** Address of a [List] object (the receiver [l *List]). An address that
    is not bound in the store stands for a nil or invalid receiver: the
    first field access through it panics. *)
Definition lref := positive.

(** ** Go's [int]

    [Len] counts in an [int], a two's complement integer of the width of
    the platform; it is modelled at 64 bits.  [count++] wraps around. *)

Definition int_wrap (z : Z) : Z :=
  ((z + 2 ^ 63) mod 2 ^ 64 - 2 ^ 63)%Z.

Definition int_incr (count : Z) : Z := int_wrap (count + 1).

(** ** Linker, Element, Entry *)

(** [type Linker[T any] interface { Next() T; Prev() T; SetNext(T); SetPrev(T) }]
    instantiated, as [Element] demands, at the pointer type [*T].  The
    setters update the node value in place; here they return the updated
    value. *)
Class Linker (T : Type) := {
  Next : T → ptr;
  Prev : T → ptr;
  SetNext : ptr → T → T;
  SetPrev : ptr → T → T
}.

(** What the list algorithms rely on: each setter overwrites its own
    field and nothing else.  The interface itself cannot express this; the
    default implementation [Entry] satisfies it (instance below). *)
Class LinkerLaws (T : Type) `{Linker T} : Prop := {
  Next_SetNext : ∀ p t, Next (SetNext p t) = p;
  Prev_SetNext : ∀ p t, Prev (SetNext p t) = Prev t;
  Next_SetPrev : ∀ p t, Next (SetPrev p t) = Next t;
  Prev_SetPrev : ∀ p t, Prev (SetPrev p t) = p;
  SetNext_SetNext : ∀ p q t, SetNext p (SetNext q t) = SetNext p t;
  SetPrev_SetPrev : ∀ p q t, SetPrev p (SetPrev q t) = SetPrev p t;
  SetNext_SetPrev : ∀ p q t, SetNext p (SetPrev q t) = SetPrev q (SetNext p t)
}.

(** [type Entry[T any, U Element[T]] struct { next *T; prev *T }] *)
Record Entry := mkEntry {
  next : ptr;
  prev : ptr
}.

#[export] Instance Entry_Linker : Linker Entry := {
  Next e := next e;
  Prev e := prev e;
  SetNext elem e := {| next := elem; prev := prev e |};
  SetPrev elem e := {| next := next e; prev := elem |}
}.

(** ** List *)

(** [type List[T any, U Element[T]] struct { head *T; tail *T }] *)
Record List := mkList {
  head : ptr;
  tail : ptr
}.

(** The zero value of [List]. *)
Definition zero_List : List := {| head := None; tail := None |}.

(** ** The store and the computations over it *)

Record State (T : Type) := mkState {
  nodes : gmap loc T;
  lists : gmap lref List
}.
Arguments mkState {T} _ _.
Arguments nodes {T} _.
Arguments lists {T} _.

(** How a call ends. *)
Inductive outcome (T A : Type) :=
  | Done (a : A) (s : State T)   (* returned [a], store is now [s] *)
  | Panic                        (* nil pointer dereference *)
  | OutOfFuel.                   (* a loop did not finish within its fuel *)
Arguments Done {T A} _ _.
Arguments Panic {T A}.
Arguments OutOfFuel {T A}.

Definition M (T A : Type) := State T → outcome T A.

Definition ret {T A} (a : A) : M T A := λ s, Done a s.

Definition bind {T A B} (m : M T A) (f : A → M T B) : M T B :=
  λ s, match m s with
       | Done a s' => f a s'
       | Panic => Panic
       | OutOfFuel => OutOfFuel
       end.

(** The fuel of a loop ran out. *)
Definition out_of_fuel {T A} : M T A := λ _, OutOfFuel.

#[export] Instance M_ret {T} : MRet (M T) := λ A, ret.
#[export] Instance M_bind {T} : MBind (M T) := λ A B f m, bind m f.

Section ilist.
Context {T : Type} `{Linker T}.

(** *** Reading and writing through a list pointer *)

Definition load_head (l : lref) : M T ptr :=
  λ s, match lists s !! l with
       | Some L => Done (head L) s
       | None => Panic
       end.

Definition load_tail (l : lref) : M T ptr :=
  λ s, match lists s !! l with
       | Some L => Done (tail L) s
       | None => Panic
       end.

Definition store_head (l : lref) (v : ptr) : M T unit :=
  λ s, match lists s !! l with
       | Some L => Done () (mkState (nodes s) (<[l := {| head := v; tail := tail L |}]> (lists s)))
       | None => Panic
       end.

Definition store_tail (l : lref) (v : ptr) : M T unit :=
  λ s, match lists s !! l with
       | Some L => Done () (mkState (nodes s) (<[l := {| head := head L; tail := v |}]> (lists s)))
       | None => Panic
       end.

(** *** Calling a Linker method through a node pointer

    [U(e).Next()] and friends: the call dereferences [e], so it panics
    when [e] is nil (or, in this model, not the address of a node). *)

Definition node_at (e : ptr) (s : State T) : option (loc * T) :=
  match e with
  | Some x => match nodes s !! x with Some t => Some (x, t) | None => None end
  | None => None
  end.

Definition call_Next (e : ptr) : M T ptr :=
  λ s, match node_at e s with
       | Some (_, t) => Done (Next t) s
       | None => Panic
       end.

Definition call_Prev (e : ptr) : M T ptr :=
  λ s, match node_at e s with
       | Some (_, t) => Done (Prev t) s
       | None => Panic
       end.

Definition call_SetNext (e : ptr) (v : ptr) : M T unit :=
  λ s, match node_at e s with
       | Some (x, t) => Done () (mkState (<[x := SetNext v t]> (nodes s)) (lists s))
       | None => Panic
       end.

Definition call_SetPrev (e : ptr) (v : ptr) : M T unit :=
  λ s, match node_at e s with
       | Some (x, t) => Done () (mkState (<[x := SetPrev v t]> (nodes s)) (lists s))
       | None => Panic
       end.

(** *** Methods of List *)

(** [func (l *List) Reset()] *)
Definition Reset (l : lref) : M T unit :=
  store_head l None ;;
  store_tail l None.

(** [func (l *List) Empty() bool] *)
Definition Empty (l : lref) : M T bool :=
  h ← load_head l;
  mret (bool_decide (h = None)).

(** [func (l *List) Front() *T] *)
Definition Front (l : lref) : M T ptr :=
  load_head l.

(** [func (l *List) Back() *T] *)
Definition Back (l : lref) : M T ptr :=
  load_tail l.

(** [func (l *List) Len() (count int)]

    [for e := l.Front(); e != nil; e = U(e).Next() { count++ }].
    One unit of fuel pays for one iteration of the loop. *)
Fixpoint Len_loop (fuel : nat) (e : ptr) (count : Z) : M T Z :=
  if bool_decide (e ≠ None) then
    match fuel with
    | O => out_of_fuel
    | S fuel' =>
        let count := int_incr count in
        e ← call_Next e;
        Len_loop fuel' e count
    end
  else mret count.

Definition Len (fuel : nat) (l : lref) : M T Z :=
  e ← Front l;
  Len_loop fuel e 0%Z.

(** [func (l *List) PushFront(e *T)] *)
Definition PushFront (l : lref) (e : ptr) : M T unit :=
  h ← load_head l;
  call_SetNext e h ;;
  call_SetPrev e None ;;
  h ← load_head l;
  (if bool_decide (h ≠ None) then
     call_SetPrev h e
   else
     store_tail l e) ;;
  store_head l e.

(** [func (l *List) PushFrontList(m *List)] *)
Definition PushFrontList (l m : lref) : M T unit :=
  lh ← load_head l;
  (if bool_decide (lh = None) then
     mh ← load_head m;
     store_head l mh ;;
     mt ← load_tail m;
     store_tail l mt
   else
     mh ← load_head m;
     if bool_decide (mh ≠ None) then
       lh ← load_head l;
       mt ← load_tail m;
       call_SetPrev lh mt ;;
       mt ← load_tail m;
       lh ← load_head l;
       call_SetNext mt lh ;;
       mh ← load_head m;
       store_head l mh
     else
       mret ()) ;;
  store_head m None ;;
  store_tail m None.

(** [func (l *List) PushBack(e *T)] *)
Definition PushBack (l : lref) (e : ptr) : M T unit :=
  call_SetNext e None ;;
  t ← load_tail l;
  call_SetPrev e t ;;
  t ← load_tail l;
  (if bool_decide (t ≠ None) then
     call_SetNext t e
   else
     store_head l e) ;;
  store_tail l e.

(** [func (l *List) PushBackList(m *List)] *)
Definition PushBackList (l m : lref) : M T unit :=
  lh ← load_head l;
  (if bool_decide (lh = None) then
     mh ← load_head m;
     store_head l mh ;;
     mt ← load_tail m;
     store_tail l mt
   else
     mh ← load_head m;
     if bool_decide (mh ≠ None) then
       lt ← load_tail l;
       mh ← load_head m;
       call_SetNext lt mh ;;
       mh ← load_head m;
       lt ← load_tail l;
       call_SetPrev mh lt ;;
       mt ← load_tail m;
       store_tail l mt
     else
       mret ()) ;;
  store_head m None ;;
  store_tail m None.

(** [func (l *List) InsertAfter(b, e *T)] *)
Definition InsertAfter (l : lref) (b e : ptr) : M T unit :=
  a ← call_Next b;
  call_SetNext e a ;;
  call_SetPrev e b ;;
  call_SetNext b e ;;
  if bool_decide (a ≠ None) then
    call_SetPrev a e
  else
    store_tail l e.

(** [func (l *List) InsertBefore(a, e *T)] *)
Definition InsertBefore (l : lref) (a e : ptr) : M T unit :=
  b ← call_Prev a;
  call_SetNext e a ;;
  call_SetPrev e b ;;
  call_SetPrev a e ;;
  if bool_decide (b ≠ None) then
    call_SetNext b e
  else
    store_head l e.

(** [func (l *List) Remove(e *T)] *)
Definition Remove (l : lref) (e : ptr) : M T unit :=
  prev ← call_Prev e;
  next ← call_Next e;
  (if bool_decide (prev ≠ None) then
     call_SetNext prev next
   else
     lh ← load_head l;
     if bool_decide (lh = e) then store_head l next else mret ()) ;;
  (if bool_decide (next ≠ None) then
     call_SetPrev next prev
   else
     lt ← load_tail l;
     if bool_decide (lt = e) then store_tail l prev else mret ()) ;;
  call_SetNext e None ;;
  call_SetPrev e None.

(** *** Two clients of the list

    They are the test scenario of the specification: push the nodes [es]
    to the back of [l], in order, then take the front node and remove it
    until the list is empty, recording the nodes in the order they come
    out. *)

(** [for _, e := range es { l.PushBack(e) }] *)
Fixpoint push_all (l : lref) (es : list loc) : M T unit :=
  match es with
  | [] => mret ()
  | e :: es' =>
      PushBack l (Some e) ;;
      push_all l es'
  end.

(** [for e := l.Front(); e != nil; e = l.Front() { l.Remove(e); out = append(out, e) }].
    One unit of fuel pays for one iteration of the loop. *)
Fixpoint drain (fuel : nat) (l : lref) : M T (list loc) :=
  e ← Front l;
  match e with
  | None => mret []
  | Some x =>
      match fuel with
      | O => out_of_fuel
      | S fuel' =>
          Remove l e ;;
          out ← drain fuel' l;
          mret (x :: out)
      end
  end.

(** *** Iterating over a list

    The loop of the documentation of [List],
    [for e := l.Front(); e != nil; e = e.Next() { out = append(out, e) }],
    and the same loop from the back,
    [for e := l.Back(); e != nil; e = e.Prev() { ... }].  One unit of fuel
    pays for one iteration. *)

Fixpoint walk_next (fuel : nat) (e : ptr) : M T (list loc) :=
  match e with
  | None => mret []
  | Some x =>
      match fuel with
      | O => out_of_fuel
      | S fuel' =>
          e' ← call_Next e;
          out ← walk_next fuel' e';
          mret (x :: out)
      end
  end.

Definition forward (fuel : nat) (l : lref) : M T (list loc) :=
  e ← Front l;
  walk_next fuel e.

Fixpoint walk_prev (fuel : nat) (e : ptr) : M T (list loc) :=
  match e with
  | None => mret []
  | Some x =>
      match fuel with
      | O => out_of_fuel
      | S fuel' =>
          e' ← call_Prev e;
          out ← walk_prev fuel' e';
          mret (x :: out)
      end
  end.

Definition backward (fuel : nat) (l : lref) : M T (list loc) :=
  e ← Back l;
  walk_prev fuel e.

(** *** A sequence of pushes at either end

    [(true, e)] stands for [l.PushFront(e)], [(false, e)] for
    [l.PushBack(e)]. *)
Fixpoint push_each (l : lref) (ops : list (bool * loc)) : M T unit :=
  match ops with
  | [] => mret ()
  | (front, e) :: ops' =>
      (if front then PushFront l (Some e) else PushBack l (Some e)) ;;
      push_each l ops'
  end.

End ilist.


(** ** The invariants of a list *)

Section invariants.
Context {T : Type} `{Linker T}.

(** The first node of [xs], or [n] when there is none. *)
Definition first_or (xs : list loc) (n : ptr) : ptr :=
  match xs with
  | [] => n
  | x :: _ => Some x
  end.

(** The last node of [xs], or [p] when there is none. *)
Definition last_or (p : ptr) (xs : list loc) : ptr :=
  match last xs with
  | Some x => Some x
  | None => p
  end.

(** [chain h p xs n]: in the node store [h] the nodes [xs] are linked one
    after the other in both directions; the first one's prev link is [p]
    and the last one's next link is [n]. *)
Fixpoint chain (h : gmap loc T) (p : ptr) (xs : list loc) (n : ptr) : Prop :=
  match xs with
  | [] => True
  | x :: xs' =>
      (∃ t, h !! x = Some t ∧ Prev t = p ∧ Next t = first_or xs' n) ∧
      chain h (Some x) xs' n
  end.

(** [members h L xs]: the list [L] holds exactly the nodes [xs], in this
    order.  No node occurs twice (the chain is acyclic and does not
    branch), [head] is the first node and [tail] the last one (both nil
    when there is none), and the links run from nil to nil. *)
Record members (h : gmap loc T) (L : List) (xs : list loc) : Prop := {
  members_NoDup : NoDup xs;
  members_head : head L = first_or xs None;
  members_tail : tail L = last_or None xs;
  members_chain : chain h None xs None
}.

(** The invariants of section 3 of the specification. *)
Record Invariants (h : gmap loc T) (L : List) : Prop := {
  (* head is absent iff tail is absent *)
  inv_head_tail : head L = None ↔ tail L = None;
  (* the head's prev link is absent *)
  inv_head_prev : ∀ x, head L = Some x → ∃ t, h !! x = Some t ∧ Prev t = None;
  (* the tail's next link is absent *)
  inv_tail_next : ∀ x, tail L = Some x → ∃ t, h !! x = Some t ∧ Next t = None;
  (* the links form a consistent, acyclic doubly linked chain *)
  inv_members : ∃ xs, members h L xs
}.

(** The nodes that a sequence of pushes puts at the front, first pushed
    first, and those it puts at the back. *)
Fixpoint front_pushed (ops : list (bool * loc)) : list loc :=
  match ops with
  | [] => []
  | (true, e) :: ops' => e :: front_pushed ops'
  | (false, _) :: ops' => front_pushed ops'
  end.

Fixpoint back_pushed (ops : list (bool * loc)) : list loc :=
  match ops with
  | [] => []
  | (true, _) :: ops' => back_pushed ops'
  | (false, e) :: ops' => e :: back_pushed ops'
  end.

(** A call returned, and the list at [l] satisfies the invariants in the
    store it left behind. *)
Definition keeps_invariants {A} (o : outcome T A) (l : lref) : Prop :=
  ∃ a s' L', o = Done a s' ∧ lists s' !! l = Some L' ∧ Invariants (nodes s') L'.

End invariants.

(** ** Example stores

    Nodes are bare [Entry] values.  In [store_abc] the list at address 10
    holds the nodes 1, 2, 3, the list at 20 holds 4, 5, the list at 30 is
    a zero value, node 6 is in no list but carries stale links, and node
    7 is in no list and has nil links. *)

Definition nodes_abc : gmap loc Entry :=
  list_to_map
    [ (1%positive, mkEntry (Some 2%positive) None);
      (2%positive, mkEntry (Some 3%positive) (Some 1%positive));
      (3%positive, mkEntry None (Some 2%positive));
      (4%positive, mkEntry (Some 5%positive) None);
      (5%positive, mkEntry None (Some 4%positive));
      (6%positive, mkEntry (Some 1%positive) (Some 3%positive));
      (7%positive, mkEntry None None) ].

Definition L_abc : List := mkList (Some 1%positive) (Some 3%positive).
Definition L_de : List := mkList (Some 4%positive) (Some 5%positive).

Definition lists_abc : gmap lref List :=
  list_to_map
    [ (10%positive, L_abc); (20%positive, L_de); (30%positive, zero_List) ].

Definition store_abc : State Entry := mkState nodes_abc lists_abc.

(** Three fresh nodes and one zero-value list. *)
Definition store_fresh : State Entry :=
  mkState
    (list_to_map
       [ (1%positive, mkEntry None None);
         (2%positive, mkEntry None None);
         (3%positive, mkEntry None None) ])
    {[ 10%positive := zero_List ]}.

(** A node that is its own successor and predecessor, as the head and
    tail of the list at 10; node 2 is the head of the list at 20 and its
    only node. *)
Definition store_ring : State Entry :=
  mkState
    (list_to_map
       [ (1%positive, mkEntry (Some 1%positive) (Some 1%positive));
         (2%positive, mkEntry None None) ])
    (list_to_map
       [ (10%positive, mkList (Some 1%positive) (Some 1%positive));
         (20%positive, mkList (Some 2%positive) (Some 2%positive)) ]).

(** * Properties *)

(** The default link holder is a lawful Linker. *)
#[export] Instance Entry_LinkerLaws : LinkerLaws Entry.
Proof. by split; intros; try destruct t. Qed.

(** ** Chains *)

Section chain_facts.
Context {T : Type} {linker : Linker T} {laws : LinkerLaws T}.
Implicit Types (h : gmap loc T) (xs ys : list loc) (p n : ptr) (x y e : loc).

Lemma first_or_app xs ys n : first_or (xs ++ ys) n = first_or xs (first_or ys n).
Proof. by destruct xs. Qed.

Lemma last_or_nil p : last_or p [] = p.
Proof. done. Qed.

Lemma last_or_cons p x xs : last_or p (x :: xs) = last_or (Some x) xs.
Proof. unfold last_or. rewrite last_cons. by destruct (last xs). Qed.

Lemma last_or_snoc p xs x : last_or p (xs ++ [x]) = Some x.
Proof. unfold last_or. by rewrite last_snoc. Qed.

Lemma last_or_app p xs ys : last_or p (xs ++ ys) = last_or (last_or p xs) ys.
Proof.
  revert p. induction xs as [|x xs IH]; intros p; [done|].
  by rewrite <- app_comm_cons, !last_or_cons, IH.
Qed.

Lemma first_or_None xs : first_or xs None = None → xs = [].
Proof. by destruct xs. Qed.

Lemma last_or_is_Some x xs : is_Some (last_or (Some x) xs).
Proof.
  revert x. induction xs as [|y xs IH]; intros x; [by eexists|].
  rewrite last_or_cons. apply IH.
Qed.

Lemma last_or_None xs : last_or None xs = None → xs = [].
Proof.
  destruct xs as [|x xs]; [done|]. rewrite last_or_cons. intros Hx.
  destruct (last_or_is_Some x xs) as [y Hy]. congruence.
Qed.

Lemma last_or_elem p xs y : last_or p xs = Some y → p = Some y ∨ y ∈ xs.
Proof.
  revert p. induction xs as [|x xs IH]; intros p; [by left|].
  rewrite last_or_cons. intros Hy. right.
  destruct (IH _ Hy) as [[= ->]|Hin]; [by left|by right].
Qed.

Lemma chain_app h p xs ys n :
  chain h p (xs ++ ys) n ↔
  chain h p xs (first_or ys n) ∧ chain h (last_or p xs) ys n.
Proof.
  revert p. induction xs as [|x xs IH]; intros p.
  - simpl. rewrite last_or_nil. tauto.
  - simpl. rewrite IH, first_or_app, last_or_cons. tauto.
Qed.

(** Writing to a node outside the chain does not affect it. *)
Lemma chain_insert_notin h p xs n x t :
  x ∉ xs → chain (<[x := t]> h) p xs n ↔ chain h p xs n.
Proof.
  revert p. induction xs as [|y xs IH]; intros p Hx; [done|].
  apply not_elem_of_cons in Hx as [Hxy Hx]. simpl.
  rewrite lookup_insert_ne by done. by rewrite IH.
Qed.

End chain_facts.

(** ** Running the methods symbolically *)

Ltac unfold_ops :=
  unfold Reset, Empty, Front, Back, Len, PushFront, PushBack, PushFrontList,
    PushBackList, InsertAfter, InsertBefore, Remove;
  unfold mbind, M_bind, mret, M_ret, bind, ret, out_of_fuel, load_head, load_tail, store_head, store_tail,
    call_Next, call_Prev, call_SetNext, call_SetPrev, node_at.

Ltac run_step :=
  match goal with
  | Hl : ?m !! ?k = Some _ |- context [?m !! ?k] => rewrite Hl
  | |- context [<[?k := _]> _ !! ?k] => rewrite lookup_insert_eq
  | |- context [<[?k := _]> _ !! ?k'] =>
      rewrite (lookup_insert_ne _ k k') by congruence
  | Heq : Prev ?t = _ |- context [Prev ?t] => rewrite Heq
  | Heq : Next ?t = _ |- context [Next ?t] => rewrite Heq
  | Heq : head ?L = _ |- context [head ?L] => rewrite Heq
  | Heq : tail ?L = _ |- context [tail ?L] => rewrite Heq
  | |- context [bool_decide ?P] =>
      first [ rewrite (bool_decide_eq_true_2 P) by congruence
            | rewrite (bool_decide_eq_false_2 P) by (intros ?; congruence) ]
  end.

(** The laws of a Linker, as rewriting steps. *)
Ltac linker_laws :=
  repeat first
    [ rewrite Next_SetNext | rewrite Prev_SetNext
    | rewrite Next_SetPrev | rewrite Prev_SetPrev ].

(** Looking up a node under a pile of writes. *)
Ltac map_lookup :=
  repeat first
    [ rewrite lookup_insert_eq
    | rewrite lookup_insert_ne by congruence ].

(** A node of the chain has the links it should have. *)
Ltac node_ok :=
  eexists; split;
  [ map_lookup; first [reflexivity | eassumption]
  | linker_laws; split; first [done | congruence] ].

Ltac run := unfold_ops; cbn [nodes lists head tail]; repeat (run_step; cbn [nodes lists head tail]).


(** ** Lists and their members *)

Section members_facts.
Context {T : Type} {linker : Linker T} {laws : LinkerLaws T}.
Implicit Types (h : gmap loc T) (L : List) (xs ys : list loc) (p n : ptr) (x y e : loc).

Lemma chain_cons h p x xs n :
  chain h p (x :: xs) n ↔
  (∃ t, h !! x = Some t ∧ Prev t = p ∧ Next t = first_or xs n) ∧
  chain h (Some x) xs n.
Proof. done. Qed.

Lemma chain_snoc h p xs x n :
  chain h p (xs ++ [x]) n ↔
  chain h p xs (Some x) ∧
  (∃ t, h !! x = Some t ∧ Prev t = last_or p xs ∧ Next t = n).
Proof. rewrite chain_app. simpl. tauto. Qed.

(** The node in the middle of a chain, with its two links. *)
Lemma chain_middle h p xs x ys n :
  chain h p (xs ++ x :: ys) n →
  ∃ t, h !! x = Some t ∧ Prev t = last_or p xs ∧ Next t = first_or ys n.
Proof. rewrite chain_app. simpl. tauto. Qed.

Lemma chain_lookup h p xs n x :
  chain h p xs n → x ∈ xs → is_Some (h !! x).
Proof.
  intros Hc Hx. apply list_elem_of_split in Hx as (xs1 & xs2 & ->).
  apply chain_middle in Hc as (t & Ht & _). by exists t.
Qed.

Lemma members_nil h : members h zero_List [].
Proof. split; [constructor|done..]. Qed.

Lemma members_nil_inv h L : members h L [] → L = zero_List.
Proof. intros [_ Hh Ht _]. destruct L. simpl in *. by subst. Qed.

Lemma members_head_None h L xs : members h L xs → head L = None → xs = [].
Proof. intros [_ Hh _ _] E. rewrite E in Hh. by apply first_or_None. Qed.

Lemma members_tail_None h L xs : members h L xs → tail L = None → xs = [].
Proof. intros [_ _ Ht _] E. rewrite E in Ht. by apply last_or_None. Qed.

Lemma members_middle h L xs x ys :
  members h L (xs ++ x :: ys) →
  ∃ t, h !! x = Some t ∧ Prev t = last_or None xs ∧ Next t = first_or ys None.
Proof. intros [_ _ _ Hc]. by apply chain_middle in Hc. Qed.

Lemma members_lookup h L xs x : members h L xs → x ∈ xs → is_Some (h !! x).
Proof. intros [_ _ _ Hc]. by eapply chain_lookup. Qed.

(** The members of a list are determined by the store: walking the next
    links from the head visits them in order. *)
Lemma chain_unique h p xs ys n :
  chain h p xs None → chain h p ys None →
  first_or xs None = first_or ys None → xs = ys.
Proof.
  revert p ys. induction xs as [|x xs IH]; intros p [|y ys]; simpl; try done.
  intros [(t & Ht & _ & Hn) Hc] [(t' & Ht' & _ & Hn') Hc'] [= <-].
  f_equal. apply (IH (Some x)); [done..|]. congruence.
Qed.

Lemma members_unique h L xs ys : members h L xs → members h L ys → xs = ys.
Proof.
  intros [_ Hh _ Hc] [_ Hh' _ Hc'].
  apply (chain_unique h None xs ys None); congruence.
Qed.

Lemma members_Invariants h L xs : members h L xs → Invariants h L.
Proof.
  intros Hm. split.
  - split; intros E.
    + rewrite (members_head_None _ _ _ Hm E) in Hm. by destruct Hm.
    + rewrite (members_tail_None _ _ _ Hm E) in Hm. by destruct Hm.
  - intros x Hx. destruct Hm as [_ Hh _ Hc]. rewrite Hx in Hh.
    destruct xs as [|x' xs]; simplify_eq/=.
    destruct Hc as [(t & ? & ? & ?) _]. eauto.
  - intros x Hx. destruct Hm as [_ _ Ht Hc]. rewrite Hx in Ht.
    destruct xs as [|x' xs] using rev_ind; [done|].
    rewrite last_or_snoc in Ht. simplify_eq.
    apply chain_snoc in Hc as [_ (t & ? & ? & ?)]. eauto.
  - eauto.
Qed.

Lemma Invariants_iff_members h L : Invariants h L ↔ ∃ xs, members h L xs.
Proof.
  split; [by intros [_ _ _ ?]|]. intros [xs Hm]. by eapply members_Invariants.
Qed.

(** Consistency of the links: if [a.next == b] for a member [a] then [b]
    is a member and [b.prev == a], and the other way round. *)
Lemma members_next_prev h L xs a b ta :
  members h L xs → a ∈ xs → h !! a = Some ta → Next ta = Some b →
  b ∈ xs ∧ ∃ tb, h !! b = Some tb ∧ Prev tb = Some a.
Proof.
  intros Hm Ha Hta Hn. apply list_elem_of_split in Ha as (xs1 & xs2 & ->).
  destruct (members_middle _ _ _ _ _ Hm) as (t & Ht & _ & Hnx).
  assert (t = ta) as -> by congruence. rewrite Hn in Hnx.
  destruct xs2 as [|b' xs2]; simpl in Hnx; [done|]. injection Hnx as ->.
  split; [set_solver|].
  destruct Hm as [_ _ _ Hc].
  rewrite (cons_middle a xs1), app_assoc in Hc.
  apply chain_middle in Hc as (tb & ? & Hp & _).
  rewrite last_or_snoc in Hp. eauto.
Qed.

Lemma members_prev_next h L xs a b tb :
  members h L xs → b ∈ xs → h !! b = Some tb → Prev tb = Some a →
  a ∈ xs ∧ ∃ ta, h !! a = Some ta ∧ Next ta = Some b.
Proof.
  intros Hm Hb Htb Hp. apply list_elem_of_split in Hb as (xs1 & xs2 & ->).
  destruct (members_middle _ _ _ _ _ Hm) as (t & Ht & Hpv & _).
  assert (t = tb) as -> by congruence. rewrite Hp in Hpv.
  destruct xs1 as [|a' xs1 _] using rev_ind.
  { by rewrite last_or_nil in Hpv. }
  rewrite last_or_snoc in Hpv. injection Hpv as ->.
  split; [set_solver|].
  destruct Hm as [_ _ _ Hc]. rewrite <- app_assoc in Hc.
  apply chain_middle in Hc as (ta & ? & _ & Hn). eauto.
Qed.

(** Walking the prev links from the last node visits the members in
    reverse order, so a chain is also determined by its last node. *)
Lemma chain_unique_back h xs : ∀ ys n n',
  chain h None xs n → chain h None ys n' →
  last_or None xs = last_or None ys → xs = ys.
Proof.
  induction xs as [|x xs IH] using rev_ind; intros ys n n' Hc Hc' Hlast.
  - symmetry in Hlast. by apply last_or_None in Hlast.
  - destruct ys as [|y ys _] using rev_ind.
    { by apply last_or_None in Hlast. }
    rewrite !last_or_snoc in Hlast. injection Hlast as <-.
    apply chain_snoc in Hc as [Hc (t & Ht & Hp & _)].
    apply chain_snoc in Hc' as [Hc' (t' & Ht' & Hp' & _)].
    f_equal. apply (IH ys (Some x) (Some x)); [done..|]. congruence.
Qed.

(** Two valid lists that have one node in common have all of them in
    common: they are the same list. *)
Lemma members_share h L L' xs ys z :
  members h L xs → members h L' ys → z ∈ xs → z ∈ ys → xs = ys ∧ L = L'.
Proof.
  intros Hm Hm' Hx Hy.
  assert (xs = ys) as <-.
  { apply list_elem_of_split in Hx as (a1 & a2 & ->).
    apply list_elem_of_split in Hy as (b1 & b2 & ->).
    destruct Hm as [_ _ _ Hc]. destruct Hm' as [_ _ _ Hc'].
    destruct (chain_middle _ _ _ _ _ _ Hc) as (t & Ht & Hp & Hn).
    destruct (chain_middle _ _ _ _ _ _ Hc') as (t' & Ht' & Hp' & Hn').
    assert (t' = t) as -> by congruence.
    apply chain_app in Hc as [Hc1 [_ Hc2]].
    apply chain_app in Hc' as [Hc1' [_ Hc2']].
    f_equal; [|f_equal].
    - apply (chain_unique_back h a1 b1 _ _ Hc1 Hc1'). congruence.
    - apply (chain_unique h (Some z) a2 b2 None Hc2 Hc2'). congruence. }
  split; [done|].
  destruct Hm as [_ Hh Ht _]. destruct Hm' as [_ Hh' Ht' _].
  destruct L, L'. simpl in *. congruence.
Qed.

Lemma members_disjoint_or_same h L L' xs ys :
  members h L xs → members h L' ys →
  (∀ z, z ∈ ys → z ∉ xs) ∨ (xs = ys ∧ L = L').
Proof.
  intros Hm Hm'.
  destruct (decide (Forall (λ z, z ∉ xs) ys)) as [Hall|Hex].
  - left. by apply Forall_forall.
  - right. apply not_Forall_Exists in Hex; [|apply _].
    apply Exists_exists in Hex as (z & Hz & Hzx).
    apply dec_stable in Hzx. by eapply members_share.
Qed.

End members_facts.

(** ** Queries *)

Section queries.
Context {T : Type} {linker : Linker T} {laws : LinkerLaws T}.
Implicit Types (s : State T) (l m : lref) (L : List) (xs ys : list loc).
Implicit Types (p n : ptr) (x y e : loc).

Lemma int_wrap_small z : (- 2 ^ 63 ≤ z < 2 ^ 63)%Z → int_wrap z = z.
Proof. intros Hz. unfold int_wrap. rewrite Z.mod_small; lia. Qed.

Lemma int_incr_wrap z : int_incr (int_wrap z) = int_wrap (z + 1).
Proof.
  unfold int_incr, int_wrap.
  replace ((z + 2 ^ 63) mod 2 ^ 64 - 2 ^ 63 + 1 + 2 ^ 63)%Z
    with ((z + 2 ^ 63) mod 2 ^ 64 + 1)%Z by lia.
  rewrite Zplus_mod_idemp_l. do 2 f_equal. lia.
Qed.

Lemma iter_int_incr k z :
  Nat.iter k int_incr (int_wrap z) = int_wrap (z + Z.of_nat k).
Proof.
  induction k as [|k IH]; simpl.
  - f_equal. lia.
  - rewrite IH, int_incr_wrap. f_equal. lia.
Qed.

Lemma int_wrap_mod (z : Z) : (int_wrap z mod 2 ^ 64 = z mod 2 ^ 64)%Z.
Proof.
  unfold int_wrap.
  rewrite <- Zminus_mod_idemp_l, Z.mod_mod by lia.
  rewrite Zminus_mod_idemp_l. f_equal. lia.
Qed.

Lemma int_wrap_congr (z1 z2 : Z) :
  (z1 mod 2 ^ 64 = z2 mod 2 ^ 64)%Z → int_wrap z1 = int_wrap z2.
Proof.
  intros Hz. unfold int_wrap.
  rewrite <- (Zplus_mod_idemp_l z1), <- (Zplus_mod_idemp_l z2). by rewrite Hz.
Qed.

Lemma int_wrap_pred (z : Z) : int_wrap (int_wrap z - 1) = int_wrap (z - 1).
Proof.
  apply int_wrap_congr.
  by rewrite <- Zminus_mod_idemp_l, int_wrap_mod, Zminus_mod_idemp_l.
Qed.

Lemma int_wrap_add (z1 z2 : Z) :
  int_wrap (int_wrap z1 + int_wrap z2) = int_wrap (z1 + z2).
Proof.
  apply int_wrap_congr.
  rewrite Zplus_mod, !int_wrap_mod. by rewrite <- Zplus_mod.
Qed.

Lemma Reset_spec s l L :
  lists s !! l = Some L →
  Reset l s = Done () (mkState (nodes s) (<[l := zero_List]> (lists s))).
Proof. intros Hl. run. by rewrite insert_insert_eq. Qed.

Lemma Empty_spec s l L :
  lists s !! l = Some L → Empty l s = Done (bool_decide (head L = None)) s.
Proof. intros Hl. by run. Qed.

Lemma Front_spec s l L : lists s !! l = Some L → Front l s = Done (head L) s.
Proof. intros Hl. by run. Qed.

Lemma Back_spec s l L : lists s !! l = Some L → Back l s = Done (tail L) s.
Proof. intros Hl. by run. Qed.

(** The loop of [Len] walks a chain that ends in nil, and counts it. *)
Lemma Len_loop_chain s p xs fuel c :
  chain (nodes s) p xs None → (length xs ≤ fuel)%nat →
  Len_loop fuel (first_or xs None) c s = Done (Nat.iter (length xs) int_incr c) s.
Proof.
  revert p fuel c. induction xs as [|x xs IH]; intros p fuel c Hc Hfuel.
  - by destruct fuel.
  - destruct fuel as [|fuel]; simpl in Hfuel; [lia|].
    destruct Hc as [(t & Ht & _ & Hn) Hc]. simpl.
    unfold mbind, M_bind, bind, call_Next, node_at. rewrite ?Ht, Hn.
    rewrite (IH (Some x)) by (done || lia). by rewrite <- Nat.iter_succ_r.
Qed.

Lemma Len_spec s l L xs fuel :
  lists s !! l = Some L → members (nodes s) L xs → (length xs ≤ fuel)%nat →
  Len fuel l s = Done (int_wrap (Z.of_nat (length xs))) s.
Proof.
  intros Hl [_ Hh _ Hc] Hfuel. unfold Len, mbind, M_bind, bind, Front, load_head.
  rewrite Hl, Hh. erewrite Len_loop_chain by done.
  by rewrite <- (int_wrap_small 0), iter_int_incr by lia.
Qed.

End queries.

(** ** Insertion of one node *)

Section insertion.
Context {T : Type} {linker : Linker T} {laws : LinkerLaws T}.
Implicit Types (s : State T) (l m : lref) (L : List) (xs ys : list loc).
Implicit Types (p n : ptr) (x y e : loc).

Lemma PushFront_spec s l L xs e :
  lists s !! l = Some L → members (nodes s) L xs →
  is_Some (nodes s !! e) → e ∉ xs →
  ∃ s' L', PushFront l (Some e) s = Done () s' ∧
    lists s' = <[l := L']> (lists s) ∧
    members (nodes s') L' (e :: xs) ∧
    (∀ y, y ≠ e → Some y ≠ first_or xs None → nodes s' !! y = nodes s !! y).
Proof.
  intros Hl [Hnd Hh Ht Hc] [te He] Hex. destruct xs as [|x xs].
  - simpl in Hh. run. eexists _, _. split; [done|].
    split; [cbn; rewrite ?insert_insert_eq; reflexivity|]. split.
    + split; [by apply NoDup_singleton|done|done|]. simpl. split; [|done].
      eexists. rewrite lookup_insert_eq. split; [done|]. by linker_laws.
    + intros y Hy _. cbn. by rewrite !lookup_insert_ne.
  - simpl in Hh. destruct Hc as [(tx & Hx & Hpx & Hnx) Hc].
    apply not_elem_of_cons in Hex as [Hex Hexs].
    apply NoDup_cons in Hnd as Hnd'. destruct Hnd' as [Hxxs Hnd'].
    run. eexists _, _. split; [done|].
    split; [cbn; rewrite ?insert_insert_eq; reflexivity|]. split.
    + split.
      * apply NoDup_cons. split; [by apply not_elem_of_cons|done].
      * done.
      * cbn. by rewrite ?Ht, !last_or_cons.
      * cbn [chain nodes]. split; [|split].
        -- eexists. rewrite lookup_insert_ne, lookup_insert_eq by done.
           split; [done|]. by linker_laws.
        -- eexists. rewrite lookup_insert_eq. split; [done|]. by linker_laws.
        -- by rewrite !chain_insert_notin.
    + intros y Hy Hyx. cbn in *. rewrite !lookup_insert_ne; congruence.
Qed.

End insertion.

Section removal.
Context {T : Type} {linker : Linker T} {laws : LinkerLaws T}.
Implicit Types (s : State T) (l m : lref) (L : List) (xs ys : list loc).
Implicit Types (p n : ptr) (x y e : loc).

Lemma NoDup_app_cons_inv xs1 e xs2 :
  NoDup (xs1 ++ e :: xs2) →
  (e ∉ xs1) ∧ (e ∉ xs2) ∧ NoDup (xs1 ++ xs2).
Proof.
  rewrite NoDup_app, NoDup_cons. intros (H1 & H12 & He & H2).
  split; [|split; [done|]].
  - intros Hin. apply (H12 _ Hin). by left.
  - apply NoDup_app. split; [done|]. split; [|done].
    intros x Hx Hx2. apply (H12 _ Hx). by right.
Qed.

Lemma Remove_spec s l L xs1 e xs2 :
  lists s !! l = Some L → members (nodes s) L (xs1 ++ e :: xs2) →
  ∃ s' L', Remove l (Some e) s = Done () s' ∧
    lists s' = <[l := L']> (lists s) ∧
    members (nodes s') L' (xs1 ++ xs2) ∧
    (∃ te', nodes s' !! e = Some te' ∧ Prev te' = None ∧ Next te' = None) ∧
    (∀ y, y ≠ e → Some y ≠ last_or None xs1 → Some y ≠ first_or xs2 None →
          nodes s' !! y = nodes s !! y).
Proof.
  intros Hl [Hnd Hh Ht Hc].
  destruct (chain_middle _ _ _ _ _ _ Hc) as (te & He & Hp & Hn).
  destruct (NoDup_app_cons_inv _ _ _ Hnd) as (He1 & He2 & Hnd').
  rewrite first_or_app in Hh. rewrite last_or_app, last_or_cons in Ht.
  apply chain_app in Hc as [Hc1 Hc2]. simpl in Hc1.
  destruct Hc2 as [_ Hc2].
  destruct xs1 as [|a xs1 _] using rev_ind; destruct xs2 as [|b xs2];
    rewrite ?last_or_nil, ?last_or_snoc, ?app_nil_r in *; simpl in *.
  - (* the only node *)
    run. eexists _, _. split; [done|].
    split; [cbn; rewrite ?insert_insert_eq; reflexivity|].
    split; [|split].
    + by split.
    + cbn. node_ok.
    + intros y Hy _ _. cbn. by map_lookup.
  - (* the head, with a successor *)
    destruct Hc2 as [(tb & Hb & Hpb & Hnb) Hc2].
    apply not_elem_of_cons in He2 as [Heb He2].
    apply NoDup_cons in Hnd' as Hnd''. destruct Hnd'' as [Hb2 _].
    run. eexists _, _. split; [done|].
    split; [cbn; rewrite ?insert_insert_eq; reflexivity|].
    split; [|split].
    + split; [done|done|by cbn; rewrite ?Ht, !last_or_cons|].
      cbn [chain nodes]. split; [node_ok|].
      by rewrite !chain_insert_notin.
    + cbn. node_ok.
    + intros y Hy _ Hyb. cbn. map_lookup. done.
  - (* the tail, with a predecessor *)
    apply chain_snoc in Hc1 as [Hc1 (ta & Ha & Hpa & Hna)].
    apply not_elem_of_app in He1 as [He1 Hea].
    apply not_elem_of_cons in Hea as [Hea _].
    apply NoDup_app in Hnd' as Hnd''. destruct Hnd'' as (_ & Ha1 & _).
    assert (a ∉ xs1) as Ha1'.
    { intros Hin. apply (Ha1 _ Hin). by left. }
    run. eexists _, _. split; [done|].
    split; [cbn; rewrite ?insert_insert_eq; reflexivity|].
    split; [|split].
    + split; [done|by cbn; rewrite ?Hh, !first_or_app|by cbn; rewrite last_or_snoc|].
      cbn [nodes]. apply chain_snoc. split; [|node_ok].
      by rewrite !chain_insert_notin.
    + cbn. node_ok.
    + intros y Hy Hya _. cbn. by map_lookup.
  - (* in the middle *)
    apply chain_snoc in Hc1 as [Hc1 (ta & Ha & Hpa & Hna)].
    destruct Hc2 as [(tb & Hb & Hpb & Hnb) Hc2].
    apply not_elem_of_app in He1 as [He1 Hea].
    apply not_elem_of_cons in Hea as [Hea _].
    apply not_elem_of_cons in He2 as [Heb He2].
    apply NoDup_app in Hnd' as Hnd''. destruct Hnd'' as (Hnd1 & H12 & Hnd2).
    apply NoDup_app in Hnd1 as (_ & Ha1 & _).
    apply NoDup_cons in Hnd2 as [Hb2 _].
    assert (a ≠ b) as Hab.
    { intros ->. apply (H12 b); [apply elem_of_app; right|]; by left. }
    assert (a ∉ xs1) as Ha1'.
    { intros Hin. apply (Ha1 _ Hin). by left. }
    assert (a ∉ xs2) as Ha2.
    { intros Hin. apply (H12 a); [apply elem_of_app; right; by left|by right]. }
    assert (b ∉ xs1) as Hb1.
    { intros Hin. apply (H12 b); [apply elem_of_app; by left|by left]. }
    run. eexists _, _. split; [done|].
    split; [cbn; symmetry; by apply insert_id|].
    split; [|split].
    + split; [done|by cbn; rewrite ?Hh, !first_or_app|
               by cbn; rewrite ?Ht, last_or_app, !last_or_cons|].
      cbn [nodes]. rewrite <- app_assoc. apply chain_app. split.
      * rewrite !chain_insert_notin by done. done.
      * cbn [app chain]. split; [node_ok|split; [node_ok|]].
        by rewrite !chain_insert_notin.
    + cbn. node_ok.
    + intros y Hy Hya Hyb. cbn. by map_lookup.
Qed.

End removal.

(** ** Insertion at the back and next to a member *)

Section insertion_inside.
Context {T : Type} {linker : Linker T} {laws : LinkerLaws T}.
Implicit Types (s : State T) (l m : lref) (L : List) (xs ys : list loc).
Implicit Types (p n : ptr) (x y e a b : loc).

Lemma PushBack_spec s l L xs e :
  lists s !! l = Some L → members (nodes s) L xs →
  is_Some (nodes s !! e) → e ∉ xs →
  ∃ s' L', PushBack l (Some e) s = Done () s' ∧
    lists s' = <[l := L']> (lists s) ∧
    members (nodes s') L' (xs ++ [e]) ∧
    (∀ y, y ≠ e → Some y ≠ last_or None xs → nodes s' !! y = nodes s !! y).
Proof.
  intros Hl [Hnd Hh Ht Hc] [te He] Hex.
  destruct xs as [|x xs _] using rev_ind;
    rewrite ?last_or_nil, ?last_or_snoc in *; simpl in *.
  - run. eexists _, _. split; [done|].
    split; [cbn; rewrite ?insert_insert_eq; reflexivity|]. split.
    + split; [by apply NoDup_singleton|done|done|]. simpl. split; [|done].
      node_ok.
    + intros y Hy _. cbn. by map_lookup.
  - apply chain_snoc in Hc as [Hc (tx & Hx & Hpx & Hnx)].
    apply not_elem_of_app in Hex as [Hexs Hex].
    apply not_elem_of_cons in Hex as [Hex _].
    apply NoDup_app in Hnd as Hnd'. destruct Hnd' as (_ & Hx1 & _).
    assert (x ∉ xs) as Hxxs.
    { intros Hin. apply (Hx1 _ Hin). by left. }
    run. eexists _, _. split; [done|].
    split; [cbn; rewrite ?insert_insert_eq; reflexivity|]. split.
    + split.
      * apply NoDup_app. split; [done|]. split; [|by apply NoDup_singleton].
        intros y Hy Hye. apply list_elem_of_singleton in Hye as ->.
        apply Hex. apply elem_of_app in Hy as [Hy|Hy]; [done|].
        by apply list_elem_of_singleton in Hy.
      * cbn. by rewrite ?Hh, !first_or_app.
      * cbn. by rewrite last_or_snoc.
      * cbn [nodes]. apply chain_snoc. split.
        -- apply chain_snoc. split; [by rewrite !chain_insert_notin|node_ok].
        -- rewrite last_or_snoc. node_ok.
    + intros y Hy Hyx. cbn. by map_lookup.
Qed.

Lemma InsertAfter_spec s l L xs1 b xs2 e :
  lists s !! l = Some L → members (nodes s) L (xs1 ++ b :: xs2) →
  is_Some (nodes s !! e) → e ∉ xs1 ++ b :: xs2 →
  ∃ s' L', InsertAfter l (Some b) (Some e) s = Done () s' ∧
    lists s' = <[l := L']> (lists s) ∧
    head L' = head L ∧
    members (nodes s') L' (xs1 ++ b :: e :: xs2) ∧
    (∀ y, y ≠ e → y ≠ b → Some y ≠ first_or xs2 None →
          nodes s' !! y = nodes s !! y).
Proof.
  intros Hl [Hnd Hh Ht Hc] [te He] Hex.
  destruct (chain_middle _ _ _ _ _ _ Hc) as (tb & Hb & Hpb & Hnb).
  destruct (NoDup_app_cons_inv _ _ _ Hnd) as (Hb1 & Hb2 & Hnd').
  apply not_elem_of_app in Hex as [Hex1 Hex].
  apply not_elem_of_cons in Hex as [Heb Hex2].
  rewrite first_or_app in Hh. rewrite last_or_app, last_or_cons in Ht.
  apply chain_app in Hc as [Hc1 Hc2]. simpl in Hc1.
  destruct Hc2 as [_ Hc2].
  assert (NoDup (xs1 ++ b :: e :: xs2)) as Hnd2.
  { apply NoDup_app in Hnd as (Hn1 & H12 & Hn2).
    apply NoDup_cons in Hn2 as [_ Hn2].
    apply NoDup_app. split; [done|]. split.
    - intros y Hy Hy2. apply elem_of_cons in Hy2 as [->|Hy2]; [done|].
      apply elem_of_cons in Hy2 as [->|Hy2]; [done|].
      apply (H12 _ Hy). by right.
    - apply NoDup_cons. split.
      + apply not_elem_of_cons. split; [congruence|done].
      + apply NoDup_cons. by split. }
  destruct xs2 as [|a xs2]; simpl in *.
  - (* b was the tail *)
    run. eexists _, _. split; [done|].
    split; [cbn; rewrite ?insert_insert_eq; reflexivity|].
    split; [done|]. split.
    + split; [done|by cbn; rewrite ?Hh, !first_or_app|
               by cbn; rewrite last_or_app, !last_or_cons|].
      cbn [nodes]. apply chain_app. split.
      * by rewrite !chain_insert_notin.
      * cbn [chain]. split; [node_ok|split; [node_ok|done]].
    + intros y Hy Hyb _. cbn. by map_lookup.
  - (* b had a successor *)
    destruct Hc2 as [(ta & Ha & Hpa & Hna) Hc2].
    apply not_elem_of_cons in Hb2 as [Hba Hb2].
    apply not_elem_of_cons in Hex2 as [Hea Hex2].
    apply NoDup_app in Hnd as Hnd3. destruct Hnd3 as (_ & H12 & Hn2).
    apply NoDup_cons in Hn2 as [_ Hn2]. apply NoDup_cons in Hn2 as [Ha2 _].
    assert (a ∉ xs1) as Ha1.
    { intros Hin. apply (H12 _ Hin). right. by left. }
    run. eexists _, _. split; [done|].
    split; [cbn; symmetry; by apply insert_id|].
    split; [done|]. split.
    + split; [done|by cbn; rewrite ?Hh, !first_or_app|
               by cbn; rewrite ?Ht, last_or_app, !last_or_cons|].
      cbn [nodes]. apply chain_app. split.
      * by rewrite !chain_insert_notin.
      * cbn [chain]. split; [node_ok|split; [node_ok|split; [node_ok|]]].
        by rewrite !chain_insert_notin.
    + intros y Hy Hyb Hya. cbn. by map_lookup.
Qed.

End insertion_inside.

Section insertion_before.
Context {T : Type} {linker : Linker T} {laws : LinkerLaws T}.
Implicit Types (s : State T) (l m : lref) (L : List) (xs ys : list loc).
Implicit Types (p n : ptr) (x y e a b : loc).

Lemma InsertBefore_spec s l L xs1 a xs2 e :
  lists s !! l = Some L → members (nodes s) L (xs1 ++ a :: xs2) →
  is_Some (nodes s !! e) → e ∉ xs1 ++ a :: xs2 →
  ∃ s' L', InsertBefore l (Some a) (Some e) s = Done () s' ∧
    lists s' = <[l := L']> (lists s) ∧
    tail L' = tail L ∧
    members (nodes s') L' (xs1 ++ e :: a :: xs2) ∧
    (∀ y, y ≠ e → y ≠ a → Some y ≠ last_or None xs1 →
          nodes s' !! y = nodes s !! y).
Proof.
  intros Hl [Hnd Hh Ht Hc] [te He] Hex.
  destruct (chain_middle _ _ _ _ _ _ Hc) as (ta & Ha & Hpa & Hna).
  destruct (NoDup_app_cons_inv _ _ _ Hnd) as (Ha1 & Ha2 & Hnd').
  apply not_elem_of_app in Hex as [Hex1 Hex].
  apply not_elem_of_cons in Hex as [Hea Hex2].
  rewrite first_or_app in Hh. rewrite last_or_app, last_or_cons in Ht.
  apply chain_app in Hc as [Hc1 Hc2]. simpl in Hc1.
  destruct Hc2 as [_ Hc2].
  assert (NoDup (xs1 ++ e :: a :: xs2)) as Hnd2.
  { apply NoDup_app in Hnd as (Hn1 & H12 & Hn2).
    apply NoDup_app. split; [done|]. split.
    - intros y Hy Hy2. apply elem_of_cons in Hy2 as [->|Hy2]; [done|].
      by apply (H12 _ Hy).
    - apply NoDup_cons. split; [|done].
      apply not_elem_of_cons. by split. }
  destruct xs1 as [|b xs1 _] using rev_ind;
    rewrite ?last_or_nil, ?last_or_snoc in *; simpl in *.
  - (* a was the head *)
    run. eexists _, _. split; [done|].
    split; [cbn; rewrite ?insert_insert_eq; reflexivity|].
    split; [done|]. split.
    + split; [done|done|by cbn; rewrite ?Ht, !last_or_cons|].
      cbn [chain nodes]. split; [node_ok|split; [node_ok|]].
      by rewrite !chain_insert_notin.
    + intros y Hy Hya _. cbn. by map_lookup.
  - (* a had a predecessor *)
    apply chain_snoc in Hc1 as [Hc1 (tb & Hb & Hpb & Hnb)].
    apply not_elem_of_app in Ha1 as [Ha1 Hab].
    apply not_elem_of_cons in Hab as [Hab _].
    apply not_elem_of_app in Hex1 as [Hex1 Heb].
    apply not_elem_of_cons in Heb as [Heb _].
    apply NoDup_app in Hnd as Hnd3. destruct Hnd3 as (Hn1 & H12 & _).
    apply NoDup_app in Hn1 as (_ & Hb1 & _).
    assert (b ∉ xs1) as Hb1'.
    { intros Hin. apply (Hb1 _ Hin). by left. }
    assert (b ∉ xs2) as Hb2.
    { intros Hin. apply (H12 b); [apply elem_of_app; right; by left|by right]. }
    run. eexists _, _. split; [done|].
    split; [cbn; symmetry; by apply insert_id|].
    split; [done|]. split.
    + split; [done|by cbn; rewrite ?Hh, !first_or_app|
               by cbn; rewrite ?Ht, last_or_app, !last_or_cons|].
      cbn [nodes]. rewrite <- app_assoc. apply chain_app. split.
      * by rewrite !chain_insert_notin.
      * cbn [app chain]. split; [node_ok|split; [node_ok|split; [node_ok|]]].
        by rewrite !chain_insert_notin.
    + intros y Hy Hya Hyb. cbn. by map_lookup.
Qed.

End insertion_before.

(** ** Splicing two lists *)

Section splice.
Context {T : Type} {linker : Linker T} {laws : LinkerLaws T}.
Implicit Types (s : State T) (l m : lref) (L : List) (xs ys : list loc).
Implicit Types (p n : ptr) (x y e a b : loc).

Lemma first_or_snoc_Some xs x n : ∃ y, ∀ n', first_or (xs ++ [x]) n' = Some y.
Proof. destruct xs as [|y xs]; [by exists x|by exists y]. Qed.

Lemma List_eta L : {| head := head L; tail := tail L |} = L.
Proof. by destruct L. Qed.

Lemma PushFrontList_spec s l m L Lm xs ys :
  l ≠ m → lists s !! l = Some L → lists s !! m = Some Lm →
  members (nodes s) L xs → members (nodes s) Lm ys →
  (∀ z, z ∈ ys → z ∉ xs) →
  ∃ s' L', PushFrontList l m s = Done () s' ∧
    lists s' = <[m := zero_List]> (<[l := L']> (lists s)) ∧
    members (nodes s') L' (ys ++ xs) ∧
    (xs = [] → L' = Lm ∧ nodes s' = nodes s) ∧
    (ys = [] → L' = L ∧ nodes s' = nodes s) ∧
    (∀ z, Some z ≠ first_or xs None → Some z ≠ last_or None ys →
          nodes s' !! z = nodes s !! z).
Proof.
  intros Hlm Hl Hm HL HLm Hdisj.
  destruct xs as [|x xs].
  - (* l is empty: it adopts the head and the tail of m *)
    apply members_nil_inv in HL as ->. unfold zero_List in Hl. run.
    rewrite List_eta, !insert_insert_eq, app_nil_r.
    eexists _, Lm. split; [done|]. cbn.
    split; [done|]. split; [done|]. split; [done|]. split; [|done].
    intros ->. by apply members_nil_inv in HLm as ->.
  - destruct ys as [|y ys _] using rev_ind.
    + (* m is empty: nothing to do *)
      apply members_nil_inv in HLm as ->. unfold zero_List in Hm.
      pose proof HL as [_ Hh _ _]. simpl in Hh. run.
      rewrite !insert_insert_eq.
      exists (mkState (nodes s) (<[m:=zero_List]> (lists s))), L.
      split; [done|]. cbn.
      split; [by rewrite (insert_id (lists s) l L)|].
      split; [done|]. split; [done|]. by split.
    + (* both have nodes: the tail of m is linked to the head of l *)
      destruct (first_or_snoc_Some ys y None) as [y0 Hy0].
      destruct HL as [Hnd Hh Ht Hc]. destruct HLm as [Hnd' Hh' Ht' Hc'].
      rewrite Hy0 in Hh'. rewrite last_or_snoc in Ht'. simpl in Hh.
      destruct Hc as [(tx & Hx & Hpx & Hnx) Hc].
      apply chain_snoc in Hc' as [Hc' (ty & Hy & Hpy & Hny)].
      apply NoDup_cons in Hnd as Hnd2. destruct Hnd2 as [Hxxs _].
      apply NoDup_app in Hnd' as Hnd2. destruct Hnd2 as (_ & Hy1 & _).
      assert (y ∉ ys) as Hyys.
      { intros Hin. apply (Hy1 _ Hin). by left. }
      assert (y ≠ x) as Hyx.
      { intros ->. apply (Hdisj x); [apply elem_of_app; right|]; by left. }
      assert (y ∉ xs) as Hyxs.
      { intros Hin. apply (Hdisj y); [apply elem_of_app; right; by left|by right]. }
      assert (x ∉ ys) as Hxys.
      { intros Hin. apply (Hdisj x); [apply elem_of_app; by left|by left]. }
      run. rewrite !insert_insert_eq.
      eexists _, _. split; [done|]. cbn.
      split; [done|]. split; [|split; [done|split]].
      * split.
        -- apply NoDup_app. split; [done|]. by split.
        -- cbn. by rewrite first_or_app, Hy0.
        -- cbn. by rewrite ?Ht, last_or_app, !last_or_cons.
        -- rewrite <- app_assoc. apply chain_app. split.
           ++ by rewrite !chain_insert_notin.
           ++ cbn [app chain]. split; [node_ok|split; [node_ok|]].
              by rewrite !chain_insert_notin.
      * intros Hnil. by destruct ys.
      * intros z Hzx Hzy. rewrite last_or_snoc in Hzy. by map_lookup.
Qed.

Lemma PushBackList_spec s l m L Lm xs ys :
  l ≠ m → lists s !! l = Some L → lists s !! m = Some Lm →
  members (nodes s) L xs → members (nodes s) Lm ys →
  (∀ z, z ∈ ys → z ∉ xs) →
  ∃ s' L', PushBackList l m s = Done () s' ∧
    lists s' = <[m := zero_List]> (<[l := L']> (lists s)) ∧
    members (nodes s') L' (xs ++ ys) ∧
    (xs = [] → L' = Lm ∧ nodes s' = nodes s) ∧
    (ys = [] → L' = L ∧ nodes s' = nodes s) ∧
    (∀ z, Some z ≠ last_or None xs → Some z ≠ first_or ys None →
          nodes s' !! z = nodes s !! z).
Proof.
  intros Hlm Hl Hm HL HLm Hdisj.
  destruct xs as [|x xs _] using rev_ind.
  - (* l is empty: it adopts the head and the tail of m *)
    apply members_nil_inv in HL as ->. unfold zero_List in Hl. run.
    rewrite List_eta, !insert_insert_eq.
    eexists _, Lm. split; [done|]. cbn.
    split; [done|]. split; [done|]. split; [done|]. split; [|done].
    intros ->. by apply members_nil_inv in HLm as ->.
  - destruct (first_or_snoc_Some xs x None) as [x0 Hx0].
    destruct ys as [|y ys].
    + (* m is empty: nothing to do *)
      apply members_nil_inv in HLm as ->. unfold zero_List in Hm.
      pose proof HL as [_ Hh _ _]. rewrite Hx0 in Hh. run.
      rewrite !insert_insert_eq, app_nil_r.
      exists (mkState (nodes s) (<[m:=zero_List]> (lists s))), L.
      split; [done|]. cbn.
      split; [by rewrite (insert_id (lists s) l L)|].
      split; [done|]. split; [by destruct xs|]. by split.
    + (* both have nodes: the tail of l is linked to the head of m *)
      destruct HL as [Hnd Hh Ht Hc]. destruct HLm as [Hnd' Hh' Ht' Hc'].
      rewrite Hx0 in Hh. rewrite last_or_snoc in Ht. simpl in Hh'.
      destruct Hc' as [(ty & Hy & Hpy & Hny) Hc'].
      apply chain_snoc in Hc as [Hc (tx & Hx & Hpx & Hnx)].
      apply NoDup_cons in Hnd' as Hnd2. destruct Hnd2 as [Hyys _].
      apply NoDup_app in Hnd as Hnd2. destruct Hnd2 as (_ & Hx1 & _).
      assert (x ∉ xs) as Hxxs.
      { intros Hin. apply (Hx1 _ Hin). by left. }
      assert (y ≠ x) as Hyx.
      { intros ->. apply (Hdisj x); [by left|apply elem_of_app; right; by left]. }
      assert (y ∉ xs) as Hyxs.
      { intros Hin. apply (Hdisj y); [by left|apply elem_of_app; by left]. }
      assert (x ∉ ys) as Hxys.
      { intros Hin. apply (Hdisj x); [by right|apply elem_of_app; right; by left]. }
      run. rewrite !insert_insert_eq.
      eexists _, _. split; [done|]. cbn.
      split; [done|]. split; [|split; [|split; [done|]]].
      * split.
        -- apply NoDup_app. split; [done|]. split; [|done].
           intros z Hz Hz'. by apply (Hdisj z).
        -- cbn. by rewrite first_or_app, Hx0.
        -- cbn. by rewrite ?Ht', last_or_app, !last_or_cons.
        -- rewrite <- app_assoc. apply chain_app. split.
           ++ by rewrite !chain_insert_notin.
           ++ cbn [app chain]. split; [node_ok|split; [node_ok|]].
              by rewrite !chain_insert_notin.
      * intros Hnil. by destruct xs.
      * intros z Hzx Hzy. rewrite last_or_snoc in Hzx. by map_lookup.
Qed.

End splice.

(** ** The properties of the specification *)

(** Proving that a concrete list has the given members. *)
Ltac concrete_members :=
  split;
  [ apply (bool_decide_unpack _); vm_compute; exact I
  | reflexivity
  | reflexivity
  | simpl; repeat split;
    eexists; (split; [vm_compute; reflexivity | split; reflexivity]) ].

Section spec_properties.
Context {T : Type} {linker : Linker T} {laws : LinkerLaws T}.
Implicit Types (s : State T) (l m : lref) (L : List) (xs ys es : list loc).
Implicit Types (p n : ptr) (x y e a b : loc).

Lemma keeps_invariants_intro {A} (o : outcome T A) l v s' L' xs' :
  o = Done v s' → lists s' !! l = Some L' → members (nodes s') L' xs' →
  keeps_invariants o l.
Proof.
  intros Ho Hl Hm. exists v, s', L'. split; [done|]. split; [done|].
  by eapply members_Invariants.
Qed.

(** C1.  Take a list [l] in a valid configuration: its nodes, in order,
    are [xs] (so head is nil iff tail is nil, the head's prev and the
    tail's next are nil, and the links form a consistent acyclic chain).
    Every method of [List], called with its precondition met, returns and
    leaves [l] satisfying the invariants again.  The preconditions: a
    pushed or inserted node [e] is a node that is not in [l]; the node [b]
    or [a] next to which one inserts, and a removed node, is a member; a
    spliced list [m] is another valid list sharing no node with [l] (and
    [m] satisfies the invariants afterwards, too); [Len] has fuel for one
    iteration per member. *)
Theorem methods_keep_invariants s l L xs :
  lists s !! l = Some L → members (nodes s) L xs →
  keeps_invariants (Reset l s) l ∧
  keeps_invariants (Empty l s) l ∧
  keeps_invariants (Front l s) l ∧
  keeps_invariants (Back l s) l ∧
  (∀ fuel, (length xs ≤ fuel)%nat → keeps_invariants (Len fuel l s) l) ∧
  (∀ e, is_Some (nodes s !! e) → e ∉ xs →
     keeps_invariants (PushFront l (Some e) s) l) ∧
  (∀ e, is_Some (nodes s !! e) → e ∉ xs →
     keeps_invariants (PushBack l (Some e) s) l) ∧
  (∀ m Lm ys, m ≠ l → lists s !! m = Some Lm → members (nodes s) Lm ys →
     (∀ z, z ∈ ys → z ∉ xs) →
     keeps_invariants (PushFrontList l m s) l ∧
     keeps_invariants (PushFrontList l m s) m) ∧
  (∀ m Lm ys, m ≠ l → lists s !! m = Some Lm → members (nodes s) Lm ys →
     (∀ z, z ∈ ys → z ∉ xs) →
     keeps_invariants (PushBackList l m s) l ∧
     keeps_invariants (PushBackList l m s) m) ∧
  (∀ b e, b ∈ xs → is_Some (nodes s !! e) → e ∉ xs →
     keeps_invariants (InsertAfter l (Some b) (Some e) s) l) ∧
  (∀ a e, a ∈ xs → is_Some (nodes s !! e) → e ∉ xs →
     keeps_invariants (InsertBefore l (Some a) (Some e) s) l) ∧
  (∀ e, e ∈ xs → keeps_invariants (Remove l (Some e) s) l).
Proof.
  intros Hl Hm. split_and!.
  - eapply keeps_invariants_intro; [by eapply Reset_spec| |apply members_nil].
    cbn. by rewrite lookup_insert_eq.
  - eapply keeps_invariants_intro; [by eapply Empty_spec|done..].
  - eapply keeps_invariants_intro; [by eapply Front_spec|done..].
  - eapply keeps_invariants_intro; [by eapply Back_spec|done..].
  - intros fuel Hfuel.
    eapply keeps_invariants_intro; [by eapply Len_spec|done..].
  - intros e He Hex.
    destruct (PushFront_spec s l L xs e) as (s' & L' & Hrun & Hls & Hm' & _);
      [done..|].
    eapply keeps_invariants_intro; [done| |done].
    by rewrite Hls, lookup_insert_eq.
  - intros e He Hex.
    destruct (PushBack_spec s l L xs e) as (s' & L' & Hrun & Hls & Hm' & _);
      [done..|].
    eapply keeps_invariants_intro; [done| |done].
    by rewrite Hls, lookup_insert_eq.
  - intros m Lm ys Hml Hlm HLm Hdisj.
    destruct (PushFrontList_spec s l m L Lm xs ys)
      as (s' & L' & Hrun & Hls & Hm' & _); [done..|].
    split.
    + eapply keeps_invariants_intro; [done| |done].
      by rewrite Hls, lookup_insert_ne, lookup_insert_eq.
    + eapply keeps_invariants_intro; [done| |apply members_nil].
      by rewrite Hls, lookup_insert_eq.
  - intros m Lm ys Hml Hlm HLm Hdisj.
    destruct (PushBackList_spec s l m L Lm xs ys)
      as (s' & L' & Hrun & Hls & Hm' & _); [done..|].
    split.
    + eapply keeps_invariants_intro; [done| |done].
      by rewrite Hls, lookup_insert_ne, lookup_insert_eq.
    + eapply keeps_invariants_intro; [done| |apply members_nil].
      by rewrite Hls, lookup_insert_eq.
  - intros b e Hb He Hex. apply list_elem_of_split in Hb as (xs1 & xs2 & ->).
    destruct (InsertAfter_spec s l L xs1 b xs2 e)
      as (s' & L' & Hrun & Hls & _ & Hm' & _); [done..|].
    eapply keeps_invariants_intro; [done| |done].
    by rewrite Hls, lookup_insert_eq.
  - intros a e Ha He Hex. apply list_elem_of_split in Ha as (xs1 & xs2 & ->).
    destruct (InsertBefore_spec s l L xs1 a xs2 e)
      as (s' & L' & Hrun & Hls & _ & Hm' & _); [done..|].
    eapply keeps_invariants_intro; [done| |done].
    by rewrite Hls, lookup_insert_eq.
  - intros e He. apply list_elem_of_split in He as (xs1 & xs2 & ->).
    destruct (Remove_spec s l L xs1 e xs2)
      as (s' & L' & Hrun & Hls & Hm' & _); [done..|].
    eapply keeps_invariants_intro; [done| |done].
    by rewrite Hls, lookup_insert_eq.
Qed.
(** C2.  Removing a member [e] of [l]: the call returns; the links of [e]
    are nil; the former predecessor's next link is the former successor
    and the former successor's prev link is the former predecessor, and
    where there was no predecessor (no successor) the head (the tail) of
    [l] is the former successor (predecessor) instead; the members of [l]
    are the old ones without [e], in the same order, one fewer, and [Len]
    reports one less (in Go's [int] arithmetic, and exactly so below
    2^63 members); [l] satisfies the invariants. *)
Theorem Remove_member s l L xs e te :
  lists s !! l = Some L → members (nodes s) L xs →
  e ∈ xs → nodes s !! e = Some te →
  ∃ s' L' xs1 xs2 te',
    Remove l (Some e) s = Done () s' ∧ lists s' !! l = Some L' ∧
    nodes s' !! e = Some te' ∧ Next te' = None ∧ Prev te' = None ∧
    (∀ a, Prev te = Some a →
       ∃ ta, nodes s' !! a = Some ta ∧ Next ta = Next te) ∧
    (Prev te = None → head L' = Next te) ∧
    (∀ b, Next te = Some b →
       ∃ tb, nodes s' !! b = Some tb ∧ Prev tb = Prev te) ∧
    (Next te = None → tail L' = Prev te) ∧
    xs = xs1 ++ e :: xs2 ∧ members (nodes s') L' (xs1 ++ xs2) ∧
    S (length (xs1 ++ xs2)) = length xs ∧
    (∀ fuel, (length xs ≤ fuel)%nat →
       ∃ k k', Len fuel l s = Done k s ∧ Len fuel l s' = Done k' s' ∧
         k' = int_wrap (k - 1) ∧
         ((Z.of_nat (length xs) < 2 ^ 63)%Z → k' = (k - 1)%Z)) ∧
    Invariants (nodes s') L'.
Proof.
  intros Hl Hm He Hte. apply list_elem_of_split in He as (xs1 & xs2 & ->).
  destruct (Remove_spec s l L xs1 e xs2)
    as (s' & L' & Hrun & Hls & Hm' & (te' & Hte' & Hp' & Hn') & _); [done..|].
  destruct (members_middle _ _ _ _ _ Hm) as (te0 & Hte0 & Hp & Hn).
  assert (te0 = te) as -> by congruence.
  assert (lists s' !! l = Some L') as Hl' by (by rewrite Hls, lookup_insert_eq).
  assert (S (length (xs1 ++ xs2)) = length (xs1 ++ e :: xs2)) as Hlen.
  { rewrite !length_app. simpl. lia. }
  exists s', L', xs1, xs2, te'. split_and!; try done.
  - intros a Ha. rewrite Ha in Hp.
    destruct xs1 as [|a' xs1 _] using rev_ind; [done|].
    rewrite last_or_snoc in Hp. injection Hp as <-.
    rewrite <- app_assoc in Hm'.
    destruct (members_middle _ _ _ _ _ Hm') as (ta & Hta & _ & Hna).
    exists ta. split; [done|]. by rewrite Hna, Hn.
  - intros Hnone. rewrite Hnone in Hp.
    symmetry in Hp. apply last_or_None in Hp as ->.
    destruct Hm' as [_ Hh' _ _]. by rewrite Hh', Hn.
  - intros b Hb. rewrite Hb in Hn.
    destruct xs2 as [|b' xs2]; simplify_eq/=.
    destruct (members_middle _ _ _ _ _ Hm') as (tb & Htb & Hpb & _).
    exists tb. split; [done|]. by rewrite Hpb, Hp.
  - intros Hnone. rewrite Hnone in Hn.
    symmetry in Hn. apply first_or_None in Hn as ->.
    destruct Hm' as [_ _ Ht' _]. rewrite app_nil_r in Ht'. by rewrite Ht', Hp.
  - intros fuel Hfuel.
    exists (int_wrap (Z.of_nat (length (xs1 ++ e :: xs2)))),
           (int_wrap (Z.of_nat (length (xs1 ++ xs2)))).
    split; [by eapply Len_spec|]. split; [eapply Len_spec; [done..|lia]|].
    rewrite int_wrap_pred, <- Hlen.
    split; [f_equal; lia|]. intros Hsmall.
    rewrite !int_wrap_small; lia.
  - by eapply members_Invariants.
Qed.
(** What both splices have in common: [m] is left empty and [Len] of [l]
    is the sum of the two lengths. *)
Lemma splice_lengths s s' l m L Lm L' xs ys zs fuel :
  lists s !! l = Some L → lists s !! m = Some Lm →
  members (nodes s) L xs → members (nodes s) Lm ys →
  lists s' !! l = Some L' → members (nodes s') L' zs →
  length zs = (length xs + length ys)%nat →
  (length xs + length ys ≤ fuel)%nat →
  ∃ kl km k', Len fuel l s = Done kl s ∧ Len fuel m s = Done km s ∧
    Len fuel l s' = Done k' s' ∧ k' = int_wrap (kl + km) ∧
    ((Z.of_nat (length xs + length ys) < 2 ^ 63)%Z → k' = (kl + km)%Z).
Proof.
  intros Hl Hm HL HLm Hl' HL' Hlen Hfuel.
  exists (int_wrap (Z.of_nat (length xs))), (int_wrap (Z.of_nat (length ys))),
         (int_wrap (Z.of_nat (length zs))).
  split; [eapply Len_spec; [done..|lia]|].
  split; [eapply Len_spec; [done..|lia]|].
  split; [eapply Len_spec; [done..|lia]|].
  rewrite int_wrap_add, Hlen. split; [f_equal; lia|].
  intros Hsmall. rewrite !int_wrap_small; lia.
Qed.

(** C3.  Let [l] and [m] be two different valid lists that share no node
    (by [members_disjoint_or_same] two valid lists share no node unless
    they are one and the same chain, so this only rules out a second
    [List] value that aliases the nodes of the first).
    [l.PushFrontList(m)] returns; afterwards [m] is empty, the members of
    [l] are those of [m] followed by the old members of [l], each group in
    its old order, so their number is the sum of the two, and [Len]
    reports the sum (in Go's [int] arithmetic, and exactly so below 2^63
    nodes); if [l] was empty it has the old head and tail of [m], and if
    [m] was empty [l] and all nodes are unchanged.  [l.PushBackList(m)]
    does the same with the members of [m] after those of [l]. *)
Theorem splice_lists s l m L Lm xs ys :
  m ≠ l → lists s !! l = Some L → lists s !! m = Some Lm →
  members (nodes s) L xs → members (nodes s) Lm ys →
  (∀ z, z ∈ ys → z ∉ xs) →
  (∃ s' L', PushFrontList l m s = Done () s' ∧
     lists s' !! l = Some L' ∧
     lists s' !! m = Some zero_List ∧ Empty m s' = Done true s' ∧
     members (nodes s') zero_List [] ∧
     members (nodes s') L' (ys ++ xs) ∧
     length (ys ++ xs) = (length xs + length ys)%nat ∧
     (∀ fuel, (length xs + length ys ≤ fuel)%nat →
        ∃ kl km k', Len fuel l s = Done kl s ∧ Len fuel m s = Done km s ∧
          Len fuel l s' = Done k' s' ∧ k' = int_wrap (kl + km) ∧
          ((Z.of_nat (length xs + length ys) < 2 ^ 63)%Z → k' = (kl + km)%Z)) ∧
     (xs = [] → head L' = head Lm ∧ tail L' = tail Lm) ∧
     (ys = [] → L' = L ∧ nodes s' = nodes s)) ∧
  (∃ s' L', PushBackList l m s = Done () s' ∧
     lists s' !! l = Some L' ∧
     lists s' !! m = Some zero_List ∧ Empty m s' = Done true s' ∧
     members (nodes s') zero_List [] ∧
     members (nodes s') L' (xs ++ ys) ∧
     length (xs ++ ys) = (length xs + length ys)%nat ∧
     (∀ fuel, (length xs + length ys ≤ fuel)%nat →
        ∃ kl km k', Len fuel l s = Done kl s ∧ Len fuel m s = Done km s ∧
          Len fuel l s' = Done k' s' ∧ k' = int_wrap (kl + km) ∧
          ((Z.of_nat (length xs + length ys) < 2 ^ 63)%Z → k' = (kl + km)%Z)) ∧
     (xs = [] → head L' = head Lm ∧ tail L' = tail Lm) ∧
     (ys = [] → L' = L ∧ nodes s' = nodes s)).
Proof.
  intros Hml Hl Hm HL HLm Hdisj. split.
  - destruct (PushFrontList_spec s l m L Lm xs ys)
      as (s' & L' & Hrun & Hls & Hm' & Hxs & Hys & _); [done..|].
    assert (lists s' !! l = Some L') as Hl'
      by (by rewrite Hls, lookup_insert_ne, lookup_insert_eq).
    assert (lists s' !! m = Some zero_List) as Hm0
      by (by rewrite Hls, lookup_insert_eq).
    assert (length (ys ++ xs) = (length xs + length ys)%nat) as Hlen
      by (rewrite length_app; lia).
    exists s', L'. split_and!; try done.
    + by rewrite (Empty_spec s' m zero_List Hm0).
    + apply members_nil.
    + intros fuel Hfuel. by eapply splice_lengths.
    + intros Hnil. by destruct (Hxs Hnil) as [-> _].
  - destruct (PushBackList_spec s l m L Lm xs ys)
      as (s' & L' & Hrun & Hls & Hm' & Hxs & Hys & _); [done..|].
    assert (lists s' !! l = Some L') as Hl'
      by (by rewrite Hls, lookup_insert_ne, lookup_insert_eq).
    assert (lists s' !! m = Some zero_List) as Hm0
      by (by rewrite Hls, lookup_insert_eq).
    assert (length (xs ++ ys) = (length xs + length ys)%nat) as Hlen
      by (rewrite length_app; lia).
    exists s', L'. split_and!; try done.
    + by rewrite (Empty_spec s' m zero_List Hm0).
    + apply members_nil.
    + intros fuel Hfuel. by eapply splice_lengths.
    + intros Hnil. by destruct (Hxs Hnil) as [-> _].
Qed.
(** C4.  For a list [l], empty or not, and a node [e] that is not linked
    into it, [l.PushFront(e)] returns and has set [e.next] to the old head
    and [e.prev] to nil; when there was an old head its prev link is now
    [e] (and the tail is unchanged), otherwise the tail is now [e]; the
    head is [e].  Nothing else changes.  [l.PushBack(e)] does the same at
    the other end. *)
Theorem PushFront_PushBack_effect s l L xs e te :
  lists s !! l = Some L → members (nodes s) L xs →
  nodes s !! e = Some te → e ∉ xs →
  (∃ s' L' te', PushFront l (Some e) s = Done () s' ∧
     lists s' = <[l := L']> (lists s) ∧
     nodes s' !! e = Some te' ∧ Next te' = head L ∧ Prev te' = None ∧
     (∀ x tx, head L = Some x → nodes s !! x = Some tx →
        nodes s' !! x = Some (SetPrev (Some e) tx) ∧ tail L' = tail L) ∧
     (head L = None → tail L' = Some e) ∧
     head L' = Some e ∧
     (∀ y, y ≠ e → Some y ≠ head L → nodes s' !! y = nodes s !! y)) ∧
  (∃ s' L' te', PushBack l (Some e) s = Done () s' ∧
     lists s' = <[l := L']> (lists s) ∧
     nodes s' !! e = Some te' ∧ Prev te' = tail L ∧ Next te' = None ∧
     (∀ x tx, tail L = Some x → nodes s !! x = Some tx →
        nodes s' !! x = Some (SetNext (Some e) tx) ∧ head L' = head L) ∧
     (tail L = None → head L' = Some e) ∧
     tail L' = Some e ∧
     (∀ y, y ≠ e → Some y ≠ tail L → nodes s' !! y = nodes s !! y)).
Proof.
  intros Hl Hm He Hex. split.
  - destruct (head L) as [x|] eqn:Hh.
    + assert (x ∈ xs) as Hx.
      { destruct Hm as [_ Hh' _ _]. rewrite Hh in Hh'.
        destruct xs; simplify_eq/=. by left. }
      destruct (members_lookup _ _ _ _ Hm Hx) as [tx Hx'].
      assert (x ≠ e) as Hxe by (by intros ->).
      run. eexists _, _, _. split; [done|]. cbn.
      split; [by rewrite ?insert_insert_eq|].
      split; [by map_lookup|]. linker_laws.
      split; [done|]. split; [done|]. split.
      { intros ? tx' [= <-] Htx. split; [|done]. map_lookup. congruence. }
      split; [done|]. split; [done|].
      intros y Hy Hyx. by map_lookup.
    + run. eexists _, _, _. split; [done|]. cbn.
      split; [by rewrite ?insert_insert_eq|].
      split; [by map_lookup|]. linker_laws.
      split; [done|]. split; [done|]. split; [done|].
      split; [done|]. split; [done|].
      intros y Hy _. by map_lookup.
  - destruct (tail L) as [x|] eqn:Ht.
    + assert (x ∈ xs) as Hx.
      { destruct Hm as [_ _ Ht' _]. rewrite Ht in Ht'.
        destruct xs as [|x' xs' _] using rev_ind; [done|].
        rewrite last_or_snoc in Ht'. simplify_eq.
        apply elem_of_app. right. by left. }
      destruct (members_lookup _ _ _ _ Hm Hx) as [tx Hx'].
      assert (x ≠ e) as Hxe by (by intros ->).
      run. eexists _, _, _. split; [done|]. cbn.
      split; [by rewrite ?insert_insert_eq|].
      split; [by map_lookup|]. linker_laws.
      split; [done|]. split; [done|]. split.
      { intros ? tx' [= <-] Htx. split; [|done]. map_lookup. congruence. }
      split; [done|]. split; [done|].
      intros y Hy Hyx. by map_lookup.
    + run. eexists _, _, _. split; [done|]. cbn.
      split; [by rewrite ?insert_insert_eq|].
      split; [by map_lookup|]. linker_laws.
      split; [done|]. split; [done|]. split; [done|].
      split; [done|]. split; [done|].
      intros y Hy _. by map_lookup.
Qed.
(** C5.  For a member [b] of [l] and a node [e] that is not in [l],
    [l.InsertAfter(b, e)] returns and places [e] right after [b]: [b.next]
    is [e], [e.prev] is [b], [e.next] is the old successor of [b]; that
    successor's prev link is [e] and the tail is unchanged, or, when [b]
    was the tail (it had no successor), the tail is now [e]; the head is
    unchanged; the members of [l] are the old ones with [e] after [b]. *)
Theorem InsertAfter_member s l L xs b tb e :
  lists s !! l = Some L → members (nodes s) L xs →
  b ∈ xs → nodes s !! b = Some tb →
  is_Some (nodes s !! e) → e ∉ xs →
  ∃ s' L' xs1 xs2 tb' te',
    InsertAfter l (Some b) (Some e) s = Done () s' ∧
    lists s' !! l = Some L' ∧
    nodes s' !! b = Some tb' ∧ Next tb' = Some e ∧
    nodes s' !! e = Some te' ∧ Prev te' = Some b ∧ Next te' = Next tb ∧
    (∀ a, Next tb = Some a →
       (∃ ta', nodes s' !! a = Some ta' ∧ Prev ta' = Some e) ∧
       tail L' = tail L) ∧
    (Next tb = None ↔ tail L = Some b) ∧
    (tail L = Some b → tail L' = Some e) ∧
    head L' = head L ∧
    xs = xs1 ++ b :: xs2 ∧ members (nodes s') L' (xs1 ++ b :: e :: xs2).
Proof.
  intros Hl Hm Hb Htb He Hex. apply list_elem_of_split in Hb as (xs1 & xs2 & ->).
  destruct (InsertAfter_spec s l L xs1 b xs2 e)
    as (s' & L' & Hrun & Hls & Hh' & Hm' & _); [done..|].
  destruct (members_middle _ _ _ _ _ Hm) as (tb0 & Htb0 & Hp & Hn).
  assert (tb0 = tb) as -> by congruence.
  assert (lists s' !! l = Some L') as Hl' by (by rewrite Hls, lookup_insert_eq).
  destruct (members_middle _ _ _ _ _ Hm') as (tb' & Htb' & _ & Hnb').
  pose proof Hm' as Hm2. rewrite (cons_middle b), app_assoc in Hm2.
  destruct (members_middle _ _ _ _ _ Hm2) as (te' & Hte' & Hpe' & Hne').
  rewrite last_or_snoc in Hpe'.
  assert (Next tb = None ↔ tail L = Some b) as Htail.
  { destruct Hm as [Hnd _ Ht _]. rewrite last_or_app, last_or_cons in Ht.
    rewrite Hn, Ht. split.
    - by intros ->%first_or_None.
    - intros Hlast. destruct xs2 as [|a xs2]; [done|].
      rewrite last_or_cons in Hlast.
      apply NoDup_app_cons_inv in Hnd as (_ & Hb2 & _).
      destruct (last_or_elem _ _ _ Hlast) as [[= ->]|Hin].
      + exfalso. apply Hb2. by left.
      + exfalso. apply Hb2. by right. }
  exists s', L', xs1, xs2, tb', te'. split_and!; try done.
  - by rewrite Hne', Hn.
  - intros a Ha. rewrite Ha in Hn.
    destruct xs2 as [|a' xs2]; simplify_eq/=. split.
    + pose proof Hm' as Hm3.
      rewrite (cons_middle b), (cons_middle e), !app_assoc in Hm3.
      destruct (members_middle _ _ _ _ _ Hm3) as (ta' & Hta' & Hpa' & _).
      rewrite last_or_snoc in Hpa'. eauto.
    + destruct Hm as [_ _ Ht _]. destruct Hm' as [_ _ Ht' _].
      rewrite Ht, Ht', !last_or_app. by rewrite !last_or_cons.
  - intros Hlast. apply Htail in Hlast. rewrite Hlast in Hn.
    symmetry in Hn. apply first_or_None in Hn as ->.
    destruct Hm' as [_ _ Ht' _]. rewrite Ht'.
    by rewrite (cons_middle b), app_assoc, last_or_snoc.
Qed.
(** Pushing the nodes [es] to the back appends them to the members. *)
Lemma push_all_spec es : ∀ s l L xs,
  lists s !! l = Some L → members (nodes s) L xs →
  NoDup es → (∀ e, e ∈ es → e ∉ xs) →
  (∀ e, e ∈ es → is_Some (nodes s !! e)) →
  ∃ s' L', push_all l es s = Done () s' ∧
    lists s' !! l = Some L' ∧ members (nodes s') L' (xs ++ es).
Proof.
  induction es as [|e es IH]; intros s l L xs Hl Hm Hnd Hdisj Halloc.
  - exists s, L. by rewrite app_nil_r.
  - apply NoDup_cons in Hnd as [Hees Hnd].
    destruct (PushBack_spec s l L xs e)
      as (s1 & L1 & Hrun & Hls & Hm1 & Hframe).
    { done. } { done. } { apply Halloc. by left. } { apply Hdisj. by left. }
    destruct (IH s1 l L1 (xs ++ [e])) as (s' & L' & Hrun' & Hl' & Hm').
    + by rewrite Hls, lookup_insert_eq.
    + done.
    + done.
    + intros y Hy Hin. apply elem_of_app in Hin as [Hin|Hin].
      * apply (Hdisj y); [by right|done].
      * apply list_elem_of_singleton in Hin as ->. done.
    + intros y Hy. rewrite Hframe.
      * apply Halloc. by right.
      * by intros ->.
      * intros Hlast. symmetry in Hlast.
        apply last_or_elem in Hlast as [?|Hin]; [done|].
        apply (Hdisj y); [by right|done].
    + exists s', L'. rewrite (cons_middle e), app_assoc.
      split; [|done]. simpl. unfold mbind, M_bind, bind.
      by rewrite Hrun.
Qed.

(** Taking the front node and removing it, until there is none, yields
    the members in order and leaves the zero value. *)
Lemma drain_spec xs : ∀ s l L fuel,
  lists s !! l = Some L → members (nodes s) L xs →
  (length xs ≤ fuel)%nat →
  ∃ s', drain fuel l s = Done xs s' ∧ lists s' !! l = Some zero_List.
Proof.
  induction xs as [|x xs IH]; intros s l L fuel Hl Hm Hfuel.
  - apply members_nil_inv in Hm as ->. exists s. split; [|done].
    destruct fuel; simpl; unfold mbind, M_bind, bind, Front, load_head;
      by rewrite Hl.
  - destruct fuel as [|fuel]; simpl in Hfuel; [lia|].
    destruct (Remove_spec s l L [] x xs)
      as (s1 & L1 & Hrun & Hls & Hm1 & _); [done..|].
    destruct (IH s1 l L1 fuel) as (s' & Hrun' & Hl').
    { by rewrite Hls, lookup_insert_eq. } { done. } { lia. }
    exists s'. split; [|done].
    destruct Hm as [_ Hh _ _]. simpl in Hh.
    simpl. unfold mbind, M_bind, bind, Front, load_head.
    rewrite Hl, Hh. fold (Remove l (Some x) s). 
    by rewrite Hrun, Hrun'.
Qed.

(** C6.  Pushing [n] different nodes to the back of an empty list, in
    order, and then taking the front node and removing it until the list
    has no front node returns the nodes in the order they were pushed,
    and the list is empty at the end. *)
Theorem push_back_then_drain s l es :
  lists s !! l = Some zero_List →
  NoDup es → (∀ e, e ∈ es → is_Some (nodes s !! e)) →
  ∀ fuel, (length es ≤ fuel)%nat →
  ∃ s', (push_all l es ;; drain fuel l) s = Done es s' ∧
    lists s' !! l = Some zero_List ∧
    Empty l s' = Done true s' ∧
    (∀ fuel', Len fuel' l s' = Done 0%Z s').
Proof.
  intros Hl Hnd Halloc fuel Hfuel.
  destruct (push_all_spec es s l zero_List [])
    as (s1 & L1 & Hrun & Hl1 & Hm1); [done|apply members_nil|done| |done|].
  { intros e _. apply not_elem_of_nil. }
  destruct (drain_spec es s1 l L1 fuel) as (s' & Hrun' & Hl'); [done..|].
  exists s'. split_and!.
  - unfold mbind, M_bind, bind. by rewrite Hrun.
  - done.
  - by rewrite (Empty_spec s' l zero_List Hl').
  - intros fuel'. rewrite (Len_spec s' l zero_List [] fuel' Hl'); [done| |simpl; lia].
    apply members_nil.
Qed.
(** C7.  [l.Reset()] sets the head and the tail of [l] to nil and changes
    nothing else: the node store, and with it the next and prev link of
    every node (the former members of [l] included), is exactly what it
    was, and so is every other list. *)
Theorem Reset_clears_head_tail_only s l L :
  lists s !! l = Some L →
  ∃ s', Reset l s = Done () s' ∧
    lists s' !! l = Some {| head := None; tail := None |} ∧
    nodes s' = nodes s ∧
    (∀ m, m ≠ l → lists s' !! m = lists s !! m).
Proof.
  intros Hl. eexists. split; [by eapply Reset_spec|]. cbn.
  split; [by rewrite lookup_insert_eq|]. split; [done|].
  intros m Hm. by rewrite lookup_insert_ne.
Qed.

(** C8.  On an empty list (the zero value in particular) the queries
    return, whatever the fuel of [Len]: [Empty] is true, [Front] and
    [Back] are nil, [Len] is 0.  The store is left as it was. *)
Theorem queries_on_empty_list s l L :
  lists s !! l = Some L → Invariants (nodes s) L → head L = None →
  Empty l s = Done true s ∧
  Front l s = Done None s ∧
  Back l s = Done None s ∧
  (∀ fuel, Len fuel l s = Done 0%Z s).
Proof.
  intros Hl Hinv Hh. pose proof (proj1 (inv_head_tail _ _ Hinv) Hh) as Ht.
  split; [|split; [|split]].
  - erewrite Empty_spec by done. by rewrite Hh.
  - erewrite Front_spec by done. by rewrite Hh.
  - erewrite Back_spec by done. by rewrite Ht.
  - intros fuel. unfold Len, Front, mbind, M_bind, bind, load_head.
    rewrite Hl, Hh. by destruct fuel.
Qed.

(** C9.  [PushFront] and [PushBack] overwrite both links of [e] and never
    read them: started in two stores that differ only in the next and prev
    link of [e], a call ends in the same way in both, with the same final
    store (lists and nodes, the links of [e] included). *)
Theorem Push_ignores_stale_links s l e te n p :
  nodes s !! e = Some te →
  let s2 := mkState (<[e := SetNext n (SetPrev p te)]> (nodes s)) (lists s) in
  PushFront l (Some e) s2 = PushFront l (Some e) s ∧
  PushBack l (Some e) s2 = PushBack l (Some e) s.
Proof.
  intros He s2. subst s2. split.
  - unfold_ops. cbn [nodes lists]. destruct (lists s !! l) as [L|] eqn:Hl; [|done].
    cbn [nodes lists]. rewrite lookup_insert_eq, He. cbn [nodes lists].
    rewrite !lookup_insert_eq. cbn [nodes lists]. rewrite Hl. cbn [nodes lists].
    rewrite !insert_insert_eq.
    rewrite SetNext_SetNext, (SetNext_SetPrev (head L)), SetPrev_SetPrev.
    done.
  - unfold_ops. cbn [nodes lists]. rewrite lookup_insert_eq, He. cbn [nodes lists].
    destruct (lists s !! l) as [L|] eqn:Hl; [|done].
    cbn [nodes lists]. rewrite !lookup_insert_eq. cbn [nodes lists]. rewrite Hl.
    cbn [nodes lists]. rewrite !insert_insert_eq.
    rewrite SetNext_SetNext, (SetNext_SetPrev None), SetPrev_SetPrev.
    done.
Qed.
(** C10.  Removing a node [e] whose links are both nil and which is
    neither the head nor the tail of [l] leaves [l] (and every other
    list) and every node other than [e] as they were; the links of [e]
    are nil afterwards. *)
Theorem Remove_unlinked_non_member s l L e te :
  lists s !! l = Some L → nodes s !! e = Some te →
  Next te = None → Prev te = None →
  head L ≠ Some e → tail L ≠ Some e →
  ∃ s' te', Remove l (Some e) s = Done () s' ∧
    lists s' = lists s ∧
    (∀ y, y ≠ e → nodes s' !! y = nodes s !! y) ∧
    nodes s' !! e = Some te' ∧ Next te' = None ∧ Prev te' = None.
Proof.
  intros Hl He Hn Hp Hh Ht. run. eexists _, _. split; [done|]. cbn.
  split; [done|]. split.
  - intros y Hy. by map_lookup.
  - rewrite lookup_insert_eq. split; [done|]. by linker_laws.
Qed.

End spec_properties.

(** ** The properties at concrete stores *)

(** Deciding a closed proposition by computation. *)
Ltac concrete_dec := apply (bool_decide_unpack _); vm_compute; exact I.

Lemma store_abc_members_abc :
  members (nodes store_abc) L_abc [1%positive; 2%positive; 3%positive].
Proof. concrete_members. Defined.

Lemma store_abc_members_de :
  members (nodes store_abc) L_de [4%positive; 5%positive].
Proof. concrete_members. Defined.

Lemma store_abc_disjoint :
  ∀ z : loc, z ∈ [4%positive; 5%positive] →
             z ∉ [1%positive; 2%positive; 3%positive].
Proof.
  intros z Hz. apply list_elem_of_In in Hz. simpl in Hz.
  destruct Hz as [<-|[<-|[]]]; concrete_dec.
Defined.

Lemma methods_keep_invariants_witness :
  lists store_abc !! 10%positive = Some L_abc ∧
  members (nodes store_abc) L_abc [1%positive; 2%positive; 3%positive] ∧
  keeps_invariants (Reset 10%positive store_abc) 10%positive ∧
  keeps_invariants (Len 3 10%positive store_abc) 10%positive ∧
  keeps_invariants (PushFront 10%positive (Some 6%positive) store_abc) 10%positive ∧
  keeps_invariants (PushBackList 10%positive 20%positive store_abc) 10%positive ∧
  keeps_invariants (InsertBefore 10%positive (Some 1%positive) (Some 6%positive) store_abc) 10%positive ∧
  keeps_invariants (Remove 10%positive (Some 2%positive) store_abc) 10%positive.
Proof.
  assert (lists store_abc !! 10%positive = Some L_abc) as Hl by reflexivity.
  destruct (methods_keep_invariants store_abc 10%positive L_abc
              [1%positive; 2%positive; 3%positive] Hl store_abc_members_abc)
    as (HReset & _ & _ & _ & HLen & HPushFront & _ & _ & HPushBackList &
        _ & HInsertBefore & HRemove).
  split; [exact Hl|]. split; [exact store_abc_members_abc|].
  split; [exact HReset|]. split; [apply HLen; simpl; lia|].
  split; [apply HPushFront; [by eexists|concrete_dec]|].
  split.
  { apply (HPushBackList 20%positive L_de [4%positive; 5%positive]);
      [done|reflexivity|exact store_abc_members_de|exact store_abc_disjoint]. }
  split; [apply HInsertBefore; [concrete_dec|by eexists|concrete_dec]|].
  apply HRemove. concrete_dec.
Defined.

Lemma Remove_member_witness :
  lists store_abc !! 10%positive = Some L_abc ∧
  members (nodes store_abc) L_abc [1%positive; 2%positive; 3%positive] ∧
  2%positive ∈ [1%positive; 2%positive; 3%positive] ∧
  nodes store_abc !! 2%positive
    = Some (mkEntry (Some 3%positive) (Some 1%positive)) ∧
  ∃ s' L', Remove 10%positive (Some 2%positive) store_abc = Done () s' ∧
    lists s' !! 10%positive = Some L' ∧
    members (nodes s') L' [1%positive; 3%positive] ∧
    Len 3 10%positive store_abc = Done 3%Z store_abc ∧
    Len 3 10%positive s' = Done 2%Z s'.
Proof.
  assert (lists store_abc !! 10%positive = Some L_abc) as Hl by reflexivity.
  assert (2%positive ∈ [1%positive; 2%positive; 3%positive]) as Hin
    by concrete_dec.
  assert (nodes store_abc !! 2%positive
          = Some (mkEntry (Some 3%positive) (Some 1%positive))) as He
    by reflexivity.
  do 4 (split; [done || exact store_abc_members_abc|]).
  destruct (Remove_member store_abc 10%positive L_abc _ 2%positive _
              Hl store_abc_members_abc Hin He)
    as (s' & L' & xs1 & xs2 & te' & Hrun & Hl' & _ & _ & _ & _ & _ & _ & _ &
        Hxs & Hm' & _ & HLen & _).
  exists s', L'. split; [exact Hrun|]. split; [exact Hl'|].
  assert (xs1 = [1%positive] ∧ xs2 = [3%positive]) as [-> ->].
  { destruct xs1 as [|x1 [|x2 [|x3 xs1]]]; simplify_eq/=; try done.
    destruct xs1; simplify_eq/=. }
  split; [exact Hm'|].
  destruct (HLen 3%nat) as (k & k' & Hk & Hk' & _ & Hex); [simpl; lia|].
  assert (k = 3%Z) as ->.
  { vm_compute in Hk. by injection Hk as <-. }
  split; [exact Hk|]. rewrite Hk'. f_equal. apply Hex. simpl. lia.
Defined.

Lemma splice_lists_witness :
  20%positive ≠ 10%positive ∧
  lists store_abc !! 10%positive = Some L_abc ∧
  lists store_abc !! 20%positive = Some L_de ∧
  members (nodes store_abc) L_abc [1%positive; 2%positive; 3%positive] ∧
  members (nodes store_abc) L_de [4%positive; 5%positive] ∧
  (∃ s' L', PushFrontList 10%positive 20%positive store_abc = Done () s' ∧
     lists s' !! 10%positive = Some L' ∧
     Empty 20%positive s' = Done true s' ∧
     members (nodes s') L'
       [4%positive; 5%positive; 1%positive; 2%positive; 3%positive] ∧
     Len 5 10%positive s' = Done 5%Z s') ∧
  (∃ s' L', PushBackList 10%positive 20%positive store_abc = Done () s' ∧
     lists s' !! 10%positive = Some L' ∧
     Empty 20%positive s' = Done true s' ∧
     members (nodes s') L'
       [1%positive; 2%positive; 3%positive; 4%positive; 5%positive] ∧
     Len 5 10%positive s' = Done 5%Z s').
Proof.
  assert (20%positive ≠ 10%positive) as Hne by done.
  assert (lists store_abc !! 10%positive = Some L_abc) as Hl by reflexivity.
  assert (lists store_abc !! 20%positive = Some L_de) as Hm by reflexivity.
  do 5 (split; [done || exact store_abc_members_abc
                || exact store_abc_members_de|]).
  destruct (splice_lists store_abc 10%positive 20%positive L_abc L_de _ _
              Hne Hl Hm store_abc_members_abc store_abc_members_de
              store_abc_disjoint)
    as [(s1 & L1 & Hrun1 & Hl1 & _ & He1 & _ & Hm1 & _ & HLen1 & _)
        (s2 & L2 & Hrun2 & Hl2 & _ & He2 & _ & Hm2 & _ & HLen2 & _)].
  split.
  - exists s1, L1. do 4 (split; [done|]).
    destruct (HLen1 5%nat) as (kl & km & k' & Hkl & Hkm & Hk' & _ & Hex);
      [simpl; lia|].
    vm_compute in Hkl, Hkm. injection Hkl as <-. injection Hkm as <-.
    rewrite Hk'. f_equal. apply Hex. simpl. lia.
  - exists s2, L2. do 4 (split; [done|]).
    destruct (HLen2 5%nat) as (kl & km & k' & Hkl & Hkm & Hk' & _ & Hex);
      [simpl; lia|].
    vm_compute in Hkl, Hkm. injection Hkl as <-. injection Hkm as <-.
    rewrite Hk'. f_equal. apply Hex. simpl. lia.
Defined.

Lemma PushFront_PushBack_effect_witness :
  lists store_abc !! 10%positive = Some L_abc ∧
  members (nodes store_abc) L_abc [1%positive; 2%positive; 3%positive] ∧
  nodes store_abc !! 6%positive
    = Some (mkEntry (Some 1%positive) (Some 3%positive)) ∧
  (6%positive ∉ [1%positive; 2%positive; 3%positive]) ∧
  (∃ s', PushFront 10%positive (Some 6%positive) store_abc = Done () s' ∧
     lists s' !! 10%positive = Some (mkList (Some 6%positive) (Some 3%positive)) ∧
     nodes s' !! 6%positive = Some (mkEntry (Some 1%positive) None) ∧
     nodes s' !! 1%positive
       = Some (mkEntry (Some 2%positive) (Some 6%positive))) ∧
  (∃ s', PushBack 10%positive (Some 6%positive) store_abc = Done () s' ∧
     lists s' !! 10%positive = Some (mkList (Some 1%positive) (Some 6%positive)) ∧
     nodes s' !! 6%positive = Some (mkEntry None (Some 3%positive)) ∧
     nodes s' !! 3%positive
       = Some (mkEntry (Some 6%positive) (Some 2%positive))).
Proof.
  assert (lists store_abc !! 10%positive = Some L_abc) as Hl by reflexivity.
  assert (nodes store_abc !! 6%positive
          = Some (mkEntry (Some 1%positive) (Some 3%positive))) as He
    by reflexivity.
  assert (6%positive ∉ [1%positive; 2%positive; 3%positive]) as Hnin
    by concrete_dec.
  do 4 (split; [done || exact store_abc_members_abc|]).
  destruct (PushFront_PushBack_effect store_abc 10%positive L_abc _
              6%positive _ Hl store_abc_members_abc He Hnin)
    as [(s1 & L1 & te1 & Hrun1 & Hls1 & He1 & Hn1 & Hp1 & Hold1 & _ & Hh1 & _)
        (s2 & L2 & te2 & Hrun2 & Hls2 & He2 & Hp2 & Hn2 & Hold2 & _ & Ht2 & _)].
  split.
  - exists s1. split; [exact Hrun1|].
    destruct (Hold1 1%positive (mkEntry (Some 2%positive) None))
      as [Hx1 Ht1]; [reflexivity..|].
    split; [|split; [|exact Hx1]].
    + destruct L1 as [h1 t1]. simpl in Hh1, Ht1. subst h1 t1.
      rewrite Hls1. apply lookup_insert_eq.
    + destruct te1 as [n1 p1]. simpl in Hn1, Hp1. subst n1 p1. exact He1.
  - exists s2. split; [exact Hrun2|].
    destruct (Hold2 3%positive (mkEntry None (Some 2%positive)))
      as [Hx2 Hh2]; [reflexivity..|].
    split; [|split; [|exact Hx2]].
    + destruct L2 as [h2 t2]. simpl in Hh2, Ht2. subst h2 t2.
      rewrite Hls2. apply lookup_insert_eq.
    + destruct te2 as [n2 p2]. simpl in Hn2, Hp2. subst n2 p2. exact He2.
Defined.

Lemma InsertAfter_member_witness :
  lists store_abc !! 10%positive = Some L_abc ∧
  members (nodes store_abc) L_abc [1%positive; 2%positive; 3%positive] ∧
  2%positive ∈ [1%positive; 2%positive; 3%positive] ∧
  nodes store_abc !! 2%positive
    = Some (mkEntry (Some 3%positive) (Some 1%positive)) ∧
  is_Some (nodes store_abc !! 6%positive) ∧
  (6%positive ∉ [1%positive; 2%positive; 3%positive]) ∧
  ∃ s' L',
    InsertAfter 10%positive (Some 2%positive) (Some 6%positive) store_abc
      = Done () s' ∧
    lists s' !! 10%positive = Some L' ∧
    members (nodes s') L' [1%positive; 2%positive; 6%positive; 3%positive].
Proof.
  assert (lists store_abc !! 10%positive = Some L_abc) as Hl by reflexivity.
  assert (2%positive ∈ [1%positive; 2%positive; 3%positive]) as Hin
    by concrete_dec.
  assert (nodes store_abc !! 2%positive
          = Some (mkEntry (Some 3%positive) (Some 1%positive))) as Hb
    by reflexivity.
  assert (is_Some (nodes store_abc !! 6%positive)) as He by (by eexists).
  assert (6%positive ∉ [1%positive; 2%positive; 3%positive]) as Hnin
    by concrete_dec.
  do 6 (split; [done || exact store_abc_members_abc|]).
  destruct (InsertAfter_member store_abc 10%positive L_abc _ 2%positive _
              6%positive Hl store_abc_members_abc Hin Hb He Hnin)
    as (s' & L' & xs1 & xs2 & tb' & te' & Hrun & Hl' & _ & _ & _ & _ & _ & _ &
        _ & _ & _ & Hxs & Hm').
  exists s', L'. split; [exact Hrun|]. split; [exact Hl'|].
  assert (xs1 = [1%positive] ∧ xs2 = [3%positive]) as [-> ->].
  { destruct xs1 as [|x1 [|x2 [|x3 xs1]]]; simplify_eq/=; try done.
    destruct xs1; simplify_eq/=. }
  exact Hm'.
Defined.

Lemma push_back_then_drain_witness :
  lists store_fresh !! 10%positive = Some zero_List ∧
  NoDup [2%positive; 3%positive; 1%positive] ∧
  ∃ s', (push_all 10%positive [2%positive; 3%positive; 1%positive] ;;
         drain 3 10%positive) store_fresh
          = Done [2%positive; 3%positive; 1%positive] s' ∧
    lists s' !! 10%positive = Some zero_List ∧
    Empty 10%positive s' = Done true s' ∧
    (∀ fuel', Len fuel' 10%positive s' = Done 0%Z s').
Proof.
  assert (lists store_fresh !! 10%positive = Some zero_List) as Hl
    by reflexivity.
  assert (NoDup [2%positive; 3%positive; 1%positive]) as Hnd by concrete_dec.
  do 2 (split; [done|]).
  apply (push_back_then_drain store_fresh 10%positive
           [2%positive; 3%positive; 1%positive] Hl Hnd).
  - intros e He. apply list_elem_of_In in He. simpl in He.
    destruct He as [<-|[<-|[<-|[]]]]; by eexists.
  - simpl. lia.
Defined.

Lemma Reset_clears_head_tail_only_witness :
  lists store_abc !! 10%positive = Some L_abc ∧
  ∃ s', Reset 10%positive store_abc = Done () s' ∧
    lists s' !! 10%positive = Some {| head := None; tail := None |} ∧
    nodes s' = nodes store_abc ∧
    (∀ m, m ≠ 10%positive → lists s' !! m = lists store_abc !! m).
Proof.
  split; [reflexivity|].
  apply (Reset_clears_head_tail_only store_abc 10%positive L_abc).
  reflexivity.
Defined.

Lemma queries_on_empty_list_witness :
  lists store_abc !! 30%positive = Some zero_List ∧
  Invariants (nodes store_abc) zero_List ∧
  Empty 30%positive store_abc = Done true store_abc ∧
  Front 30%positive store_abc = Done None store_abc ∧
  Back 30%positive store_abc = Done None store_abc ∧
  (∀ fuel, Len fuel 30%positive store_abc = Done 0%Z store_abc).
Proof.
  assert (Invariants (nodes store_abc) zero_List) as Hinv.
  { apply (members_Invariants _ _ []). apply members_nil. }
  split; [reflexivity|]. split; [exact Hinv|].
  apply (queries_on_empty_list store_abc 30%positive zero_List);
    [reflexivity|exact Hinv|reflexivity].
Defined.

Lemma Push_ignores_stale_links_witness :
  nodes store_abc !! 6%positive
    = Some (mkEntry (Some 1%positive) (Some 3%positive)) ∧
  let s2 :=
    mkState (<[6%positive := mkEntry (Some 4%positive) None]> (nodes store_abc))
            (lists store_abc) in
  PushFront 10%positive (Some 6%positive) s2
    = PushFront 10%positive (Some 6%positive) store_abc ∧
  PushBack 10%positive (Some 6%positive) s2
    = PushBack 10%positive (Some 6%positive) store_abc.
Proof.
  assert (nodes store_abc !! 6%positive
          = Some (mkEntry (Some 1%positive) (Some 3%positive))) as He
    by reflexivity.
  split; [exact He|].
  exact (Push_ignores_stale_links store_abc 10%positive 6%positive _
           (Some 4%positive) None He).
Defined.

Lemma Remove_unlinked_non_member_witness :
  lists store_abc !! 10%positive = Some L_abc ∧
  nodes store_abc !! 7%positive = Some (mkEntry None None) ∧
  ∃ s' te', Remove 10%positive (Some 7%positive) store_abc = Done () s' ∧
    lists s' = lists store_abc ∧
    (∀ y, y ≠ 7%positive → nodes s' !! y = nodes store_abc !! y) ∧
    nodes s' !! 7%positive = Some te' ∧ Next te' = None ∧ Prev te' = None.
Proof.
  split; [reflexivity|]. split; [reflexivity|].
  apply (Remove_unlinked_non_member store_abc 10%positive L_abc
           7%positive (mkEntry None None)); by vm_compute.
Defined.


(** ** The scenarios of the specification *)

(** Scenarios 2 and 3: push A, B, C to the back, then remove B. *)
Example scenario_push_back_remove :
  ∃ s',
    (PushBack 10%positive (Some 1%positive) ;;
     PushBack 10%positive (Some 2%positive) ;;
     PushBack 10%positive (Some 3%positive) ;;
     f ← Front 10%positive; b ← Back 10%positive; k ← Len 3 10%positive;
     Remove 10%positive (Some 2%positive) ;;
     k' ← Len 3 10%positive;
     mret (f, b, k, k')) store_fresh
      = Done (Some 1%positive, Some 3%positive, 3%Z, 2%Z) s' ∧
    members (nodes s') (mkList (Some 1%positive) (Some 3%positive))
      [1%positive; 3%positive].
Proof. eexists. split; [vm_compute; reflexivity|concrete_members]. Qed.

(** Scenarios 5 and 6: push X to the front, insert Y after X, W before X. *)
Example scenario_insert_after_before :
  ∃ s',
    (PushFront 10%positive (Some 1%positive) ;;
     InsertAfter 10%positive (Some 1%positive) (Some 2%positive) ;;
     InsertBefore 10%positive (Some 1%positive) (Some 3%positive) ;;
     f ← Front 10%positive; b ← Back 10%positive;
     mret (f, b)) store_fresh
      = Done (Some 3%positive, Some 2%positive) s' ∧
    members (nodes s') (mkList (Some 3%positive) (Some 2%positive))
      [3%positive; 1%positive; 2%positive].
Proof. eexists. split; [vm_compute; reflexivity|concrete_members]. Qed.

(** ** Why the spliced list must be another list

    Splicing a list into itself empties it, and splicing in a copy of the
    [List] value (a second list made of the same nodes) closes the chain
    into a cycle on which [Len] does not finish. *)

Example PushBackList_into_itself :
  ∃ s', PushBackList 10%positive 10%positive store_abc = Done () s' ∧
    lists s' !! 10%positive = Some zero_List.
Proof. eexists. split; [vm_compute; reflexivity|reflexivity]. Qed.

Example PushBackList_of_a_copy :
  let s := mkState nodes_abc (<[40%positive := L_abc]> lists_abc) in
  ∃ s', PushBackList 10%positive 40%positive s = Done () s' ∧
    Len 1000 10%positive s' = OutOfFuel.
Proof. eexists. split; [vm_compute; reflexivity|by vm_compute]. Qed.

(** ** Further properties of the methods *)

Section more_properties.
Context {T : Type} {linker : Linker T} {laws : LinkerLaws T}.
Implicit Types (s : State T) (l m : lref) (L : List) (xs ys es : list loc).
Implicit Types (p n : ptr) (x y e a b : loc).

Lemma first_or_elem xs y : first_or xs None = Some y → y ∈ xs.
Proof. destruct xs as [|x xs]; [done|]. intros [= ->]. by left. Qed.

(** X1.  For a member [a] of [l] and a node [e] that is not in [l],
    [l.InsertBefore(a, e)] returns and places [e] right before [a]:
    [a.prev] is [e], [e.next] is [a], [e.prev] is the old predecessor of
    [a]; that predecessor's next link is [e] and the head is unchanged, or,
    when [a] was the head (it had no predecessor), the head is now [e];
    the tail is unchanged; the members are the old ones with [e] before
    [a]. *)
Theorem InsertBefore_member s l L xs a ta e :
  lists s !! l = Some L → members (nodes s) L xs →
  a ∈ xs → nodes s !! a = Some ta →
  is_Some (nodes s !! e) → e ∉ xs →
  ∃ s' L' xs1 xs2 ta' te',
    InsertBefore l (Some a) (Some e) s = Done () s' ∧
    lists s' !! l = Some L' ∧
    nodes s' !! a = Some ta' ∧ Prev ta' = Some e ∧
    nodes s' !! e = Some te' ∧ Next te' = Some a ∧ Prev te' = Prev ta ∧
    (∀ b, Prev ta = Some b →
       (∃ tb', nodes s' !! b = Some tb' ∧ Next tb' = Some e) ∧
       head L' = head L) ∧
    (Prev ta = None ↔ head L = Some a) ∧
    (head L = Some a → head L' = Some e) ∧
    tail L' = tail L ∧
    xs = xs1 ++ a :: xs2 ∧ members (nodes s') L' (xs1 ++ e :: a :: xs2).
Proof.
  intros Hl Hm Ha Hta He Hex. apply list_elem_of_split in Ha as (xs1 & xs2 & ->).
  destruct (InsertBefore_spec s l L xs1 a xs2 e)
    as (s' & L' & Hrun & Hls & Ht' & Hm' & _); [done..|].
  destruct (members_middle _ _ _ _ _ Hm) as (ta0 & Hta0 & Hp & Hn).
  assert (ta0 = ta) as -> by congruence.
  assert (lists s' !! l = Some L') as Hl' by (by rewrite Hls, lookup_insert_eq).
  destruct (members_middle _ _ _ _ _ Hm') as (te' & Hte' & Hpe' & Hne').
  pose proof Hm' as Hm2. rewrite (cons_middle e), app_assoc in Hm2.
  destruct (members_middle _ _ _ _ _ Hm2) as (ta' & Hta' & Hpa' & _).
  rewrite last_or_snoc in Hpa'.
  assert (Prev ta = None ↔ head L = Some a) as Hhead.
  { destruct Hm as [Hnd Hh _ _]. rewrite first_or_app in Hh.
    rewrite Hp, Hh. split.
    - by intros ->%last_or_None.
    - intros Hfirst. destruct xs1 as [|b xs1]; [done|].
      simpl in Hfirst. injection Hfirst as ->.
      apply NoDup_app_cons_inv in Hnd as (Ha1 & _ & _).
      exfalso. apply Ha1. by left. }
  exists s', L', xs1, xs2, ta', te'. split_and!; try done.
  - by rewrite Hpe', Hp.
  - intros b Hb. rewrite Hb in Hp.
    destruct xs1 as [|b' xs1 _] using rev_ind; [done|].
    rewrite last_or_snoc in Hp. injection Hp as <-. split.
    + pose proof Hm' as Hm3. rewrite <- app_assoc in Hm3.
      destruct (members_middle _ _ _ _ _ Hm3) as (tb' & Htb' & _ & Hnb').
      eauto.
    + destruct Hm as [_ Hh _ _]. destruct Hm' as [_ Hh' _ _].
      rewrite Hh, Hh', <- !app_assoc, !first_or_app. done.
  - intros Hfirst. apply Hhead in Hfirst. rewrite Hfirst in Hp.
    symmetry in Hp. apply last_or_None in Hp as ->.
    by destruct Hm' as [_ -> _ _].
Qed.

(** X2.  On a valid list [Len] returns, leaves the store as it was, and
    reports the number of members in Go's [int] arithmetic: exactly that
    number when it is below 2^63.  It needs one iteration per member. *)
Theorem Len_counts_members s l L xs fuel :
  lists s !! l = Some L → members (nodes s) L xs →
  (length xs ≤ fuel)%nat →
  Len fuel l s = Done (int_wrap (Z.of_nat (length xs))) s ∧
  ((Z.of_nat (length xs) < 2 ^ 63)%Z →
   Len fuel l s = Done (Z.of_nat (length xs)) s).
Proof.
  intros Hl Hm Hfuel. split; [by eapply Len_spec|].
  intros Hsmall. erewrite Len_spec by done.
  by rewrite int_wrap_small by lia.
Qed.

(** In a set of nodes closed under the next link, none of which has a nil
    next link, the loop of [Len] runs for as long as it has fuel. *)
Lemma Len_loop_cycle s (cyc : list loc) :
  (∀ x, x ∈ cyc → ∃ t y, nodes s !! x = Some t ∧ Next t = Some y ∧ y ∈ cyc) →
  ∀ fuel x c, x ∈ cyc → Len_loop fuel (Some x) c s = OutOfFuel.
Proof.
  intros Hcyc fuel. induction fuel as [|fuel IH]; intros x c Hx; [done|].
  destruct (Hcyc x Hx) as (t & y & Ht & Hn & Hy). simpl.
  unfold mbind, M_bind, bind, call_Next, node_at. rewrite Ht, Hn.
  by apply IH.
Qed.

(** X3.  [Len] has no defence against a cycle: when the head of [l] lies
    in a set of nodes that is closed under the next link and has no nil
    next link, [Len] does not return, whatever the fuel. *)
Theorem Len_does_not_finish_on_a_cycle s l L x (cyc : list loc) :
  lists s !! l = Some L → head L = Some x → x ∈ cyc →
  (∀ z, z ∈ cyc → ∃ t y, nodes s !! z = Some t ∧ Next t = Some y ∧ y ∈ cyc) →
  ∀ fuel, Len fuel l s = OutOfFuel.
Proof.
  intros Hl Hh Hx Hcyc fuel. unfold Len, mbind, M_bind, bind, Front, load_head.
  rewrite Hl, Hh. by eapply Len_loop_cycle.
Qed.

(** X4.  A nil node is dereferenced at once: [PushFront], [PushBack] and
    [Remove] of nil, and [InsertAfter] and [InsertBefore] with a nil
    neighbour or a nil new node, panic in every store. *)
Theorem nil_node_panics s l p :
  PushFront l None s = Panic ∧
  PushBack l None s = Panic ∧
  Remove l None s = Panic ∧
  InsertAfter l None p s = Panic ∧
  InsertAfter l p None s = Panic ∧
  InsertBefore l None p s = Panic ∧
  InsertBefore l p None s = Panic.
Proof.
  split_and!; unfold_ops; cbn [nodes lists]; try done.
  - by destruct (lists s !! l).
  - destruct p as [x|]; [|done]. by destruct (nodes s !! x).
  - destruct p as [x|]; [|done]. by destruct (nodes s !! x).
Qed.

(** X5.  Pushing to the front the node that already is the head returns
    without complaint, but leaves that node as its own successor and
    predecessor; the tail is unchanged and [Len] no longer finishes. *)
Theorem PushFront_of_the_head s l L e te :
  lists s !! l = Some L → head L = Some e → nodes s !! e = Some te →
  ∃ s' te', PushFront l (Some e) s = Done () s' ∧
    lists s' !! l = Some {| head := Some e; tail := tail L |} ∧
    nodes s' !! e = Some te' ∧ Next te' = Some e ∧ Prev te' = Some e ∧
    (∀ y, y ≠ e → nodes s' !! y = nodes s !! y) ∧
    (∀ fuel, Len fuel l s' = OutOfFuel).
Proof.
  intros Hl Hh He. run. eexists _, _. split; [done|]. cbn.
  split; [by rewrite lookup_insert_eq|].
  split; [by rewrite lookup_insert_eq|]. linker_laws.
  split; [done|]. split; [done|]. split.
  { intros y Hy. by map_lookup. }
  intros fuel. unfold Len, mbind, M_bind, bind, Front, load_head. cbn.
  rewrite lookup_insert_eq. cbn.
  apply (Len_loop_cycle _ [e]); [|by left].
  intros z ->%list_elem_of_singleton. eexists _, e. cbn.
  rewrite lookup_insert_eq. split; [done|]. linker_laws. split; [done|by left].
Qed.


(** The forward walk visits a chain that ends in nil, in order. *)
Lemma walk_next_chain s p xs fuel :
  chain (nodes s) p xs None → (length xs ≤ fuel)%nat →
  walk_next fuel (first_or xs None) s = Done xs s.
Proof.
  revert p fuel. induction xs as [|x xs IH]; intros p fuel Hc Hfuel.
  - by destruct fuel.
  - destruct fuel as [|fuel]; simpl in Hfuel; [lia|].
    destruct Hc as [(t & Ht & _ & Hn) Hc]. simpl.
    unfold mbind, M_bind, bind, call_Next, node_at. rewrite Ht, Hn.
    by rewrite (IH (Some x)) by (done || lia).
Qed.

(** The backward walk visits a chain that starts at nil, in reverse. *)
Lemma walk_prev_chain s xs : ∀ n fuel,
  chain (nodes s) None xs n → (length xs ≤ fuel)%nat →
  walk_prev fuel (last_or None xs) s = Done (reverse xs) s.
Proof.
  induction xs as [|x xs IH] using rev_ind; intros n fuel Hc Hfuel.
  - by destruct fuel.
  - rewrite length_app in Hfuel. simpl in Hfuel.
    destruct fuel as [|fuel]; [lia|].
    apply chain_snoc in Hc as [Hc (t & Ht & Hp & _)].
    rewrite last_or_snoc, reverse_snoc. simpl.
    unfold mbind, M_bind, bind, call_Prev, node_at. rewrite Ht, Hp.
    by rewrite (IH (Some x)) by (done || lia).
Qed.

(** X6.  Iterating over a valid list from the front along the next links
    visits its members in order, and iterating from the back along the
    prev links visits the same nodes in the reverse order; neither changes
    the store. *)
Theorem forward_and_backward_walks s l L xs fuel :
  lists s !! l = Some L → members (nodes s) L xs →
  (length xs ≤ fuel)%nat →
  forward fuel l s = Done xs s ∧
  backward fuel l s = Done (reverse xs) s.
Proof.
  intros Hl [_ Hh Ht Hc] Hfuel. split.
  - unfold forward, mbind, M_bind, bind, Front, load_head. rewrite Hl, Hh.
    by eapply walk_next_chain.
  - unfold backward, mbind, M_bind, bind, Back, load_tail. rewrite Hl, Ht.
    by eapply walk_prev_chain.
Qed.

(** Running one method after another. *)
Lemma bind_Done {A B} (m1 : M T A) (f : A → M T B) s v s1 :
  m1 s = Done v s1 → (m1 ≫= f) s = f v s1.
Proof. intros Hrun. unfold mbind, M_bind, bind. by rewrite Hrun. Qed.

(** A list value is determined by its members. *)
Lemma members_same_List h h' L L' xs :
  members h L xs → members h' L' xs → L = L'.
Proof.
  intros [_ Hh Ht _] [_ Hh' Ht' _]. destruct L, L'. simpl in *. congruence.
Qed.

(** What inserting [e] and removing it again comes to, for any way of
    inserting that puts [e] between [xs1] and [xs2]. *)
Lemma insert_then_Remove s l L xs1 xs2 e (ins : M T unit) s1 L1 :
  lists s !! l = Some L → members (nodes s) L (xs1 ++ xs2) →
  ins s = Done () s1 → lists s1 = <[l := L1]> (lists s) →
  members (nodes s1) L1 (xs1 ++ e :: xs2) →
  (∀ y, y ≠ e → y ∉ xs1 ++ xs2 → nodes s1 !! y = nodes s !! y) →
  ∃ s', (ins ;; Remove l (Some e)) s = Done () s' ∧
    lists s' = lists s ∧ members (nodes s') L (xs1 ++ xs2) ∧
    (∃ te', nodes s' !! e = Some te' ∧ Prev te' = None ∧ Next te' = None) ∧
    (∀ y, y ≠ e → y ∉ xs1 ++ xs2 → nodes s' !! y = nodes s !! y).
Proof.
  intros Hl Hm Hins Hls1 Hm1 Hframe1.
  destruct (Remove_spec s1 l L1 xs1 e xs2)
    as (s' & L' & Hrun & Hls & Hm' & He' & Hframe);
    [by rewrite Hls1, lookup_insert_eq|done|].
  assert (L' = L) as -> by (by eapply members_same_List).
  exists s'. split; [by rewrite (bind_Done _ _ _ _ _ Hins)|].
  split; [by rewrite Hls, Hls1, insert_insert_eq, insert_id|].
  split; [done|]. split; [done|].
  intros y Hye Hy. rewrite Hframe, Hframe1; try done.
  - intros Hlast. symmetry in Hlast.
    apply last_or_elem in Hlast as [?|Hin]; [done|].
    apply Hy, elem_of_app. by left.
  - intros Hfirst. symmetry in Hfirst. apply first_or_elem in Hfirst.
    apply Hy, elem_of_app. by right.
Qed.

(** X7.  Inserting a node that is not in the list, by any of
    [PushFront], [PushBack], [InsertAfter] and [InsertBefore], and then
    removing it, gives the list back: the same head and tail, the same
    members in the same order, every other list as it was, the links of
    the node nil, and the nodes outside the list untouched. *)
Theorem insert_then_Remove_restores s l L xs e :
  lists s !! l = Some L → members (nodes s) L xs →
  is_Some (nodes s !! e) → e ∉ xs →
  let restored (o : outcome T unit) :=
    ∃ s', o = Done () s' ∧
      lists s' = lists s ∧ members (nodes s') L xs ∧
      (∃ te', nodes s' !! e = Some te' ∧ Prev te' = None ∧ Next te' = None) ∧
      (∀ y, y ≠ e → y ∉ xs → nodes s' !! y = nodes s !! y) in
  restored ((PushFront l (Some e) ;; Remove l (Some e)) s) ∧
  restored ((PushBack l (Some e) ;; Remove l (Some e)) s) ∧
  (∀ b, b ∈ xs →
     restored ((InsertAfter l (Some b) (Some e) ;; Remove l (Some e)) s)) ∧
  (∀ a, a ∈ xs →
     restored ((InsertBefore l (Some a) (Some e) ;; Remove l (Some e)) s)).
Proof.
  intros Hl Hm He Hex restored. subst restored. cbv beta. split_and!.
  - destruct (PushFront_spec s l L xs e)
      as (s1 & L1 & Hrun & Hls & Hm1 & Hframe); [done..|].
    apply (insert_then_Remove s l L [] xs e _ s1 L1); try done.
    intros y Hye Hy. apply Hframe; [done|].
    intros Hfirst. symmetry in Hfirst. by apply first_or_elem in Hfirst.
  - destruct (PushBack_spec s l L xs e)
      as (s1 & L1 & Hrun & Hls & Hm1 & Hframe); [done..|].
    pose proof (insert_then_Remove s l L xs [] e
                  (PushBack l (Some e)) s1 L1) as Hgen.
    rewrite app_nil_r in Hgen. apply Hgen; try done.
    intros y Hye Hy. apply Hframe; [done|].
    intros Hlast. symmetry in Hlast.
    by apply last_or_elem in Hlast as [?|Hin].
  - intros b Hb. apply list_elem_of_split in Hb as (xs1 & xs2 & ->).
    destruct (InsertAfter_spec s l L xs1 b xs2 e)
      as (s1 & L1 & Hrun & Hls & _ & Hm1 & Hframe); [done..|].
    rewrite (cons_middle b), app_assoc in Hm, Hm1 |- *.
    apply (insert_then_Remove s l L (xs1 ++ [b]) xs2 e _ s1 L1); try done.
    intros y Hye Hy. apply Hframe; [done| |].
    + intros ->. apply Hy. apply elem_of_app. left. apply elem_of_app.
      right. by left.
    + intros Hfirst. symmetry in Hfirst. apply first_or_elem in Hfirst.
      apply Hy, elem_of_app. by right.
  - intros a Ha. apply list_elem_of_split in Ha as (xs1 & xs2 & ->).
    destruct (InsertBefore_spec s l L xs1 a xs2 e)
      as (s1 & L1 & Hrun & Hls & _ & Hm1 & Hframe); [done..|].
    apply (insert_then_Remove s l L xs1 (a :: xs2) e _ s1 L1); try done.
    intros y Hye Hy. apply Hframe; [done| |].
    + intros ->. apply Hy. apply elem_of_app. right. by left.
    + intros Hlast. symmetry in Hlast.
      apply last_or_elem in Hlast as [?|Hin]; [done|].
      apply Hy, elem_of_app. by left.
Qed.


(** X8.  Splicing a valid list into itself returns and leaves it empty
    (zero value, [Len] 0): its nodes are lost to it.  When it had nodes,
    they are left closed into a ring, the old tail's next link being the
    old head and the old head's prev link the old tail. *)
Theorem splice_into_itself s l L xs :
  lists s !! l = Some L → members (nodes s) L xs →
  let emptied (o : outcome T unit) :=
    ∃ s', o = Done () s' ∧
      lists s' = <[l := zero_List]> (lists s) ∧
      (∀ fuel, Len fuel l s' = Done 0%Z s') ∧
      (∀ x y, head L = Some x → tail L = Some y →
         ∃ tx ty, nodes s' !! x = Some tx ∧ Prev tx = Some y ∧
                  nodes s' !! y = Some ty ∧ Next ty = Some x) in
  emptied (PushFrontList l l s) ∧ emptied (PushBackList l l s).
Proof.
  intros Hl Hm emptied. subst emptied. cbv beta.
  assert (∀ s', lists s' = <[l:=zero_List]> (lists s) →
                ∀ fuel, Len fuel l s' = Done 0%Z s') as HLen.
  { intros s' Hls fuel. unfold Len, mbind, M_bind, bind, Front, load_head.
    rewrite Hls, lookup_insert_eq. by destruct fuel. }
  destruct xs as [|x xs].
  { apply members_nil_inv in Hm as ->. unfold zero_List in Hl.
    split; run; rewrite !insert_insert_eq;
      (eexists; split; [done|]; split; [done|]; split; [by apply HLen|done]). }
  destruct Hm as [Hnd Hh Ht Hc]. simpl in Hh.
  destruct (last_or_is_Some x xs) as [y Hy].
  rewrite last_or_cons, Hy in Ht.
  destruct Hc as [(tx & Hx & Hpx & Hnx) Hc].
  destruct (decide (y = x)) as [->|Hyx].
  - split; run; rewrite !insert_insert_eq;
      (eexists; split; [done|]; split; [done|]; split; [by apply HLen|]);
      intros ? ? [= <-] [= <-]; cbn; eexists _, _;
      (split_and!;
         [by map_lookup|by linker_laws|by map_lookup|by linker_laws]).
  - assert (is_Some (nodes s !! y)) as [ty Hty].
    { apply (chain_lookup _ _ _ _ _ Hc).
      apply last_or_elem in Hy as [[= ->]|Hin]; done. }
    split; run; rewrite !insert_insert_eq;
      (eexists; split; [done|]; split; [done|]; split; [by apply HLen|]);
      intros ? ? [= <-] [= <-]; cbn; eexists _, _;
      (split_and!;
         [by map_lookup|by linker_laws|by map_lookup|by linker_laws]).
Qed.

(** When [e] has a predecessor and a successor, [Remove] never looks at
    the list it is called on. *)
Lemma Remove_interior_any_receiver s l l' e te :
  nodes s !! e = Some te → Prev te ≠ None → Next te ≠ None →
  Remove l (Some e) s = Remove l' (Some e) s.
Proof.
  intros He Hp Hn. unfold_ops. cbn [nodes lists]. rewrite He. cbn [nodes lists].
  rewrite He. cbn [nodes lists].
  rewrite (bool_decide_eq_true_2 _ Hp), (bool_decide_eq_true_2 _ Hn). done.
Qed.

(** X9.  [Remove] does not consult its receiver for a node that has both
    a predecessor and a successor: called on any list [l] whatever (another
    list, or an address that holds no list at all), it unlinks such a node
    [e] from the list [m] it is in, whose head and tail stay as they
    are. *)
Theorem Remove_interior_through_any_list s l m Lm ys1 a e b ys2 :
  lists s !! m = Some Lm →
  members (nodes s) Lm (ys1 ++ a :: e :: b :: ys2) →
  ∃ s', Remove l (Some e) s = Done () s' ∧
    lists s' = lists s ∧
    members (nodes s') Lm (ys1 ++ a :: b :: ys2) ∧
    (∃ te', nodes s' !! e = Some te' ∧ Prev te' = None ∧ Next te' = None).
Proof.
  intros Hm HLm. rewrite (cons_middle a), app_assoc in HLm.
  destruct (members_middle _ _ _ _ _ HLm) as (te & He & Hp & Hn).
  rewrite last_or_snoc in Hp. simpl in Hn.
  destruct (Remove_spec s m Lm (ys1 ++ [a]) e (b :: ys2))
    as (s' & L' & Hrun & Hls & Hm' & He' & _); [done..|].
  assert (L' = Lm) as ->.
  { destruct HLm as [_ Hh Ht _]. destruct Hm' as [_ Hh' Ht' _].
    rewrite first_or_app in Hh, Hh'. rewrite last_or_app in Ht, Ht'.
    destruct (first_or_snoc_Some ys1 a None) as [y0 Hy0].
    rewrite Hy0 in Hh, Hh'. rewrite !last_or_cons in Ht.
    rewrite last_or_cons in Ht'.
    destruct L', Lm. simpl in *. congruence. }
  exists s'. split.
  { rewrite <- Hrun. apply Remove_interior_any_receiver with te; congruence. }
  split; [by rewrite Hls, insert_id|].
  split; [|done]. by rewrite (cons_middle a), app_assoc.
Qed.

(** A chain only depends on the nodes it is made of. *)
Lemma chain_agree h h' p xs n :
  (∀ x, x ∈ xs → h' !! x = h !! x) → chain h p xs n → chain h' p xs n.
Proof.
  revert p. induction xs as [|x xs IH]; intros p Hagree; [done|].
  intros [(t & Ht & Hp & Hn) Hc]. split.
  - exists t. rewrite Hagree by (by left). done.
  - apply IH; [|done]. intros y Hy. apply Hagree. by right.
Qed.

Lemma members_agree h h' L xs :
  (∀ x, x ∈ xs → h' !! x = h !! x) → members h L xs → members h' L xs.
Proof. intros Hagree [? ? ? Hc]. split; try done. by eapply chain_agree. Qed.

(** X10.  A method called on [l] leaves every other list alone: if [m] is
    another valid list, sharing no node with [l] and not containing the
    node [e] that is inserted, then after [PushFront], [PushBack],
    [InsertAfter], [InsertBefore] or [Remove] on [l] the list [m] has the
    head, the tail and the members it had, and each of its nodes is
    exactly as it was. *)
Theorem other_lists_untouched s l m L Lm xs ys :
  lists s !! l = Some L → members (nodes s) L xs →
  m ≠ l → lists s !! m = Some Lm → members (nodes s) Lm ys →
  (∀ z, z ∈ ys → z ∉ xs) →
  let untouched (o : outcome T unit) :=
    ∃ s', o = Done () s' ∧ lists s' !! m = Some Lm ∧
      members (nodes s') Lm ys ∧
      (∀ z, z ∈ ys → nodes s' !! z = nodes s !! z) in
  (∀ e, is_Some (nodes s !! e) → e ∉ xs → e ∉ ys →
     untouched (PushFront l (Some e) s) ∧
     untouched (PushBack l (Some e) s) ∧
     (∀ b, b ∈ xs → untouched (InsertAfter l (Some b) (Some e) s)) ∧
     (∀ a, a ∈ xs → untouched (InsertBefore l (Some a) (Some e) s))) ∧
  (∀ e, e ∈ xs → untouched (Remove l (Some e) s)).
Proof.
  intros Hl HL Hml Hm HLm Hdisj untouched. subst untouched. cbv beta.
  assert (∀ s' L' (o : outcome T unit),
            o = Done () s' → lists s' = <[l:=L']> (lists s) →
            (∀ z, z ∈ ys → nodes s' !! z = nodes s !! z) →
            ∃ s', o = Done () s' ∧ lists s' !! m = Some Lm ∧
              members (nodes s') Lm ys ∧
              (∀ z, z ∈ ys → nodes s' !! z = nodes s !! z)) as Hfin.
  { intros s' L' o Ho Hls Hagree. exists s'. split; [done|].
    split; [by rewrite Hls, lookup_insert_ne|].
    split; [by eapply members_agree|done]. }
  assert (∀ z q, z ∈ ys → q = Some z → first_or xs None ≠ q) as Hfirst.
  { intros z q Hz -> Hf. apply first_or_elem in Hf. by apply (Hdisj z). }
  assert (∀ z q xs', z ∈ ys → (∀ x, x ∈ xs' → x ∈ xs) → q = Some z →
                     last_or None xs' ≠ q) as Hlast.
  { intros z q xs' Hz Hsub -> Hla.
    apply last_or_elem in Hla as [?|Hin]; [done|].
    apply (Hdisj z); [done|]. by apply Hsub. }
  split.
  - intros e He Hex Hey. split_and!.
    + destruct (PushFront_spec s l L xs e)
        as (s' & L' & Hrun & Hls & _ & Hframe); [done..|].
      apply (Hfin s' L'); [done..|]. intros z Hz. apply Hframe.
      * by intros ->.
      * intros Heq. by eapply Hfirst.
    + destruct (PushBack_spec s l L xs e)
        as (s' & L' & Hrun & Hls & _ & Hframe); [done..|].
      apply (Hfin s' L'); [done..|]. intros z Hz. apply Hframe.
      * by intros ->.
      * intros Heq. by eapply (Hlast z _ xs).
    + intros b Hb. apply list_elem_of_split in Hb as (xs1 & xs2 & ->).
      destruct (InsertAfter_spec s l L xs1 b xs2 e)
        as (s' & L' & Hrun & Hls & _ & _ & Hframe); [done..|].
      apply (Hfin s' L'); [done..|]. intros z Hz. apply Hframe.
      * by intros ->.
      * intros ->. apply (Hdisj b Hz). apply elem_of_app. right. by left.
      * intros Heq. symmetry in Heq. apply first_or_elem in Heq.
        apply (Hdisj z Hz). apply elem_of_app. right. by right.
    + intros a Ha. apply list_elem_of_split in Ha as (xs1 & xs2 & ->).
      destruct (InsertBefore_spec s l L xs1 a xs2 e)
        as (s' & L' & Hrun & Hls & _ & _ & Hframe); [done..|].
      apply (Hfin s' L'); [done..|]. intros z Hz. apply Hframe.
      * by intros ->.
      * intros ->. apply (Hdisj a Hz). apply elem_of_app. right. by left.
      * intros Heq. symmetry in Heq. revert Heq.
        apply (Hlast z _ xs1); [done| |done].
        intros x Hx. apply elem_of_app. by left.
  - intros e He. apply list_elem_of_split in He as (xs1 & xs2 & ->).
    destruct (Remove_spec s l L xs1 e xs2)
      as (s' & L' & Hrun & Hls & _ & _ & Hframe); [done..|].
    apply (Hfin s' L'); [done..|]. intros z Hz. apply Hframe.
    + intros ->. apply (Hdisj e Hz). apply elem_of_app. right. by left.
    + intros Heq. symmetry in Heq. revert Heq.
      apply (Hlast z _ xs1); [done| |done].
      intros x Hx. apply elem_of_app. by left.
    + intros Heq. symmetry in Heq. apply first_or_elem in Heq.
      apply (Hdisj z Hz). apply elem_of_app. right. by right.
Qed.


(** Pushes at either end: the front-pushed nodes end up before the old
    members, last pushed first, the back-pushed ones after them. *)
Lemma push_each_spec ops : ∀ s l L xs,
  lists s !! l = Some L → members (nodes s) L xs →
  NoDup ops.*2 → (∀ e, e ∈ ops.*2 → e ∉ xs) →
  (∀ e, e ∈ ops.*2 → is_Some (nodes s !! e)) →
  ∃ s' L', push_each l ops s = Done () s' ∧
    lists s' !! l = Some L' ∧
    members (nodes s') L'
      (reverse (front_pushed ops) ++ xs ++ back_pushed ops).
Proof.
  induction ops as [|[front e] ops IH]; intros s l L xs Hl Hm Hnd Hdisj Halloc.
  - exists s, L. by rewrite app_nil_r.
  - simpl in Hnd. apply NoDup_cons in Hnd as [Heops Hnd].
    assert (e ∉ xs) as Hex by (apply Hdisj; by left).
    assert (is_Some (nodes s !! e)) as He by (apply Halloc; by left).
    destruct front.
    + destruct (PushFront_spec s l L xs e)
        as (s1 & L1 & Hrun & Hls & Hm1 & Hframe); [done..|].
      destruct (IH s1 l L1 (e :: xs)) as (s' & L' & Hrun' & Hl' & Hm').
      * by rewrite Hls, lookup_insert_eq.
      * done.
      * done.
      * intros y Hy Hin. apply elem_of_cons in Hin as [->|Hin]; [done|].
        apply (Hdisj y); [by right|done].
      * intros y Hy. rewrite Hframe.
        -- apply Halloc. by right.
        -- by intros ->.
        -- intros Hfirst. symmetry in Hfirst. apply first_or_elem in Hfirst.
           apply (Hdisj y); [by right|done].
      * exists s', L'. split; [|split; [done|]].
        -- simpl. by rewrite (bind_Done _ _ _ _ _ Hrun).
        -- simpl. by rewrite reverse_cons, <- app_assoc.
    + destruct (PushBack_spec s l L xs e)
        as (s1 & L1 & Hrun & Hls & Hm1 & Hframe); [done..|].
      destruct (IH s1 l L1 (xs ++ [e])) as (s' & L' & Hrun' & Hl' & Hm').
      * by rewrite Hls, lookup_insert_eq.
      * done.
      * done.
      * intros y Hy Hin. apply elem_of_app in Hin as [Hin|Hin].
        -- apply (Hdisj y); [by right|done].
        -- apply list_elem_of_singleton in Hin as ->. done.
      * intros y Hy. rewrite Hframe.
        -- apply Halloc. by right.
        -- by intros ->.
        -- intros Hlast. symmetry in Hlast.
           apply last_or_elem in Hlast as [?|Hin]; [done|].
           apply (Hdisj y); [by right|done].
      * exists s', L'. split; [|split; [done|]].
        -- simpl. by rewrite (bind_Done _ _ _ _ _ Hrun).
        -- simpl. by rewrite <- !app_assoc in Hm'.
Qed.

(** X11.  Any sequence of [PushFront] and [PushBack] of different nodes
    onto an empty list returns and builds the list of the front-pushed
    nodes, last pushed first, followed by the back-pushed nodes, first
    pushed first.  So [Front] is the node most recently pushed to the
    front, or the first one pushed to the back if none was, and [Back] is
    the node most recently pushed to the back, or the first one pushed to
    the front if none was. *)
Theorem pushes_at_both_ends s l ops :
  lists s !! l = Some zero_List →
  NoDup ops.*2 → (∀ e, e ∈ ops.*2 → is_Some (nodes s !! e)) →
  ∃ s' L', push_each l ops s = Done () s' ∧
    lists s' !! l = Some L' ∧
    members (nodes s') L' (reverse (front_pushed ops) ++ back_pushed ops) ∧
    Front l s' =
      Done (first_or (reverse (front_pushed ops))
                     (first_or (back_pushed ops) None)) s' ∧
    Back l s' =
      Done (last_or (last_or None (reverse (front_pushed ops)))
                    (back_pushed ops)) s'.
Proof.
  intros Hl Hnd Halloc.
  destruct (push_each_spec ops s l zero_List [])
    as (s' & L' & Hrun & Hl' & Hm'); [done|apply members_nil|done| |done|].
  { intros e _. apply not_elem_of_nil. }
  simpl in Hm'. exists s', L'. split_and!; try done.
  - rewrite (Front_spec s' l L' Hl'). destruct Hm' as [_ -> _ _].
    by rewrite first_or_app.
  - rewrite (Back_spec s' l L' Hl'). destruct Hm' as [_ _ -> _].
    by rewrite last_or_app.
Qed.

(** X12.  A list that was reset can take nodes again, its former members
    included, although [Reset] left their links stale: after [Reset],
    pushing any different nodes to the back returns and builds the valid
    list of exactly these nodes, in the order pushed. *)
Theorem Reset_then_push_again s l L es :
  lists s !! l = Some L →
  NoDup es → (∀ e, e ∈ es → is_Some (nodes s !! e)) →
  ∃ s' L', (Reset l ;; push_all l es) s = Done () s' ∧
    lists s' !! l = Some L' ∧ members (nodes s') L' es ∧
    (∀ fuel, (length es ≤ fuel)%nat → forward fuel l s' = Done es s').
Proof.
  intros Hl Hnd Halloc.
  pose proof (Reset_spec s l L Hl) as Hreset.
  destruct (push_all_spec es (mkState (nodes s) (<[l:=zero_List]> (lists s)))
              l zero_List [])
    as (s' & L' & Hrun & Hl' & Hm');
    [apply lookup_insert_eq|apply members_nil|done| |done|].
  { intros e _. apply not_elem_of_nil. }
  simpl in Hm'. exists s', L'. split_and!; try done.
  - by rewrite (bind_Done _ _ _ _ _ Hreset).
  - intros fuel Hfuel. destruct Hm' as [_ Hh _ Hc].
    unfold forward, mbind, M_bind, bind, Front, load_head. rewrite Hl', Hh.
    by eapply walk_next_chain.
Qed.


(** X13.  On a valid list the constant-time queries return, change
    nothing, and answer for the members: [Empty] is true exactly when
    there is no member, [Front] is the first member and [Back] the last
    one, or nil when there is none. *)
Theorem queries_on_valid_list s l L xs :
  lists s !! l = Some L → members (nodes s) L xs →
  Empty l s = Done (bool_decide (xs = [])) s ∧
  Front l s = Done (xs !! 0%nat) s ∧
  Back l s = Done (last xs) s.
Proof.
  intros Hl [_ Hh Ht _]. split_and!.
  - rewrite (Empty_spec s l L Hl), Hh. by destruct xs.
  - rewrite (Front_spec s l L Hl), Hh. by destruct xs.
  - rewrite (Back_spec s l L Hl), Ht. unfold last_or. by destruct (last xs).
Qed.

(** X14.  Removing a member a second time is harmless: the second
    [Remove] finds the node with nil links and neither at the head nor at
    the tail, returns, and leaves every list and every other node as the
    first one left them. *)
Theorem Remove_twice s l L xs e :
  lists s !! l = Some L → members (nodes s) L xs → e ∈ xs →
  ∃ s1 s2 L1 xs1 xs2,
    Remove l (Some e) s = Done () s1 ∧
    Remove l (Some e) s1 = Done () s2 ∧
    xs = xs1 ++ e :: xs2 ∧
    lists s2 = lists s1 ∧ lists s1 !! l = Some L1 ∧
    members (nodes s2) L1 (xs1 ++ xs2) ∧
    (∀ y, y ≠ e → nodes s2 !! y = nodes s1 !! y) ∧
    (∃ te2, nodes s2 !! e = Some te2 ∧ Prev te2 = None ∧ Next te2 = None).
Proof.
  intros Hl Hm He. apply list_elem_of_split in He as (xs1 & xs2 & ->).
  pose proof (members_NoDup _ _ _ Hm) as Hnd.
  apply NoDup_app_cons_inv in Hnd as (He1 & He2 & _).
  destruct (Remove_spec s l L xs1 e xs2)
    as (s1 & L1 & Hrun & Hls & Hm1 & (te1 & Hte1 & Hp1 & Hn1) & _); [done..|].
  assert (lists s1 !! l = Some L1) as Hl1 by (by rewrite Hls, lookup_insert_eq).
  assert (head L1 ≠ Some e) as Hh1.
  { destruct Hm1 as [_ -> _ _]. intros Hf. apply first_or_elem in Hf.
    apply elem_of_app in Hf as [?|?]; done. }
  assert (tail L1 ≠ Some e) as Ht1.
  { destruct Hm1 as [_ _ -> _]. intros Hf.
    apply last_or_elem in Hf as [?|Hf]; [done|].
    apply elem_of_app in Hf as [?|?]; done. }
  assert (∃ s2, Remove l (Some e) s1 = Done () s2 ∧ lists s2 = lists s1 ∧
            nodes s2 = <[e := SetPrev None (SetNext None te1)]> (nodes s1))
    as (s2 & Hrun2 & Hls2 & Hnodes2).
  { clear Hrun Hl. run. eexists. split; [done|]. cbn.
    by rewrite insert_insert_eq. }
  exists s1, s2, L1, xs1, xs2. split_and!; try done.
  - eapply members_agree; [|done]. intros y Hy. rewrite Hnodes2.
    apply lookup_insert_ne. intros ->.
    apply elem_of_app in Hy as [?|?]; done.
  - intros y Hy. rewrite Hnodes2. by apply lookup_insert_ne.
  - eexists. rewrite Hnodes2, lookup_insert_eq. split; [done|].
    by linker_laws.
Qed.

(** X15.  The two splices are mirror images: [l.PushBackList(m)] and
    [m.PushFrontList(l)] do the same to the nodes and build the same
    chain, [l]'s members followed by [m]'s; the first leaves it in [l]
    and empties [m], the second leaves it in [m] and empties [l]. *)
Theorem PushBackList_mirrors_PushFrontList s l m L Lm xs ys :
  m ≠ l → lists s !! l = Some L → lists s !! m = Some Lm →
  members (nodes s) L xs → members (nodes s) Lm ys →
  (∀ z, z ∈ ys → z ∉ xs) →
  ∃ s1 s2 L',
    PushBackList l m s = Done () s1 ∧
    PushFrontList m l s = Done () s2 ∧
    nodes s1 = nodes s2 ∧
    lists s1 = <[m := zero_List]> (<[l := L']> (lists s)) ∧
    lists s2 = <[l := zero_List]> (<[m := L']> (lists s)) ∧
    members (nodes s1) L' (xs ++ ys).
Proof.
  intros Hml Hl Hm HL HLm Hdisj.
  destruct (PushBackList_spec s l m L Lm xs ys)
    as (s1 & L1 & Hrun1 & Hls1 & Hm1 & _); [done..|].
  destruct (PushFrontList_spec s m l Lm L ys xs)
    as (s2 & L2 & Hrun2 & Hls2 & Hm2 & _); [done..| |].
  { intros z Hz Hz'. by apply (Hdisj z). }
  assert (nodes s1 = nodes s2) as Hnodes.
  { clear Hm1 Hm2 Hls1 Hls2. revert Hrun1 Hrun2.
    destruct xs as [|x0 xs0]; [|destruct ys as [|y ys]].
    - apply members_nil_inv in HL as ->. unfold zero_List in Hl.
      destruct (head Lm) as [y|] eqn:Hhm.
      + run. by intros [= <-] [= <-].
      + run. by intros [= <-] [= <-].
    - apply members_nil_inv in HLm as ->. unfold zero_List in Hm.
      destruct HL as [_ Hh _ _]. simpl in Hh.
      run. by intros [= <-] [= <-].
    - destruct HL as [Hnd Hh Ht Hc]. destruct HLm as [_ Hh' Ht' Hc'].
      simpl in Hh, Hh'.
      destruct (last_or_is_Some x0 xs0) as [x Hx].
      rewrite last_or_cons, Hx in Ht.
      assert (x ∈ x0 :: xs0) as Hxin.
      { apply last_or_elem in Hx as [[= ->]|Hin]; [by left|by right]. }
      destruct (chain_lookup _ _ _ _ _ Hc Hxin) as [tx Htx].
      destruct Hc' as [(ty & Hty & _ & _) _].
      assert (x ≠ y) as Hxy.
      { intros ->. apply (Hdisj y); [by left|done]. }
      run. intros [= <-] [= <-]. cbn. by apply insert_insert_ne. }
  assert (L2 = L1) as ->.
  { rewrite Hnodes in Hm1. by eapply members_same_List. }
  by exists s1, s2, L1.
Qed.


End more_properties.

(** ** The default link holder *)

(** X16.  The methods of [Entry], called through a node pointer: what
    [SetNext] stores [Next] returns, what [SetPrev] stores [Prev] returns,
    neither setter disturbs the other link, and no other node is
    written. *)
Theorem Entry_set_then_get (s : State Entry) (e : loc) (t : Entry) (v : ptr) :
  nodes s !! e = Some t →
  (∃ s', (call_SetNext (Some e) v ;; call_Next (Some e)) s = Done v s' ∧
     (call_SetNext (Some e) v ;; call_Prev (Some e)) s = Done (prev t) s' ∧
     lists s' = lists s ∧
     (∀ y, y ≠ e → nodes s' !! y = nodes s !! y)) ∧
  (∃ s', (call_SetPrev (Some e) v ;; call_Prev (Some e)) s = Done v s' ∧
     (call_SetPrev (Some e) v ;; call_Next (Some e)) s = Done (next t) s' ∧
     lists s' = lists s ∧
     (∀ y, y ≠ e → nodes s' !! y = nodes s !! y)).
Proof.
  intros He. split.
  - exists (mkState (<[e := SetNext v t]> (nodes s)) (lists s)).
    split_and!; try done.
    + run. done.
    + run. done.
    + intros y Hy. cbn. by rewrite lookup_insert_ne.
  - exists (mkState (<[e := SetPrev v t]> (nodes s)) (lists s)).
    split_and!; try done.
    + run. done.
    + run. done.
    + intros y Hy. cbn. by rewrite lookup_insert_ne.
Qed.

(** ** The further properties at concrete stores *)

(** Every element of a concrete list has a property decided by [tac]. *)
Ltac concrete_all tac :=
  let z := fresh "z" in
  let Hz := fresh "Hz" in
  intros z Hz; apply list_elem_of_In in Hz; simpl in Hz;
  repeat (destruct Hz as [<-|Hz]; [tac|]); destruct Hz.

Lemma InsertBefore_member_witness :
  lists store_abc !! 10%positive = Some L_abc ∧
  members (nodes store_abc) L_abc [1%positive; 2%positive; 3%positive] ∧
  ∃ s' L',
    InsertBefore 10%positive (Some 2%positive) (Some 6%positive) store_abc
      = Done () s' ∧
    lists s' !! 10%positive = Some L' ∧
    members (nodes s') L' [1%positive; 6%positive; 2%positive; 3%positive].
Proof.
  assert (lists store_abc !! 10%positive = Some L_abc) as Hl by reflexivity.
  do 2 (split; [done || exact store_abc_members_abc|]).
  destruct (InsertBefore_member store_abc 10%positive L_abc _ 2%positive
              (mkEntry (Some 3%positive) (Some 1%positive)) 6%positive
              Hl store_abc_members_abc)
    as (s' & L' & xs1 & xs2 & ta' & te' & Hrun & Hl' & _ & _ & _ & _ & _ & _ &
        _ & _ & _ & Hxs & Hm');
    [concrete_dec|reflexivity|by eexists|concrete_dec|].
  exists s', L'. split; [exact Hrun|]. split; [exact Hl'|].
  assert (xs1 = [1%positive] ∧ xs2 = [3%positive]) as [-> ->].
  { destruct xs1 as [|x1 [|x2 [|x3 xs1]]]; simplify_eq/=; try done.
    destruct xs1; simplify_eq/=. }
  exact Hm'.
Defined.

Lemma Len_counts_members_witness :
  lists store_abc !! 10%positive = Some L_abc ∧
  members (nodes store_abc) L_abc [1%positive; 2%positive; 3%positive] ∧
  Len 3 10%positive store_abc = Done 3%Z store_abc.
Proof.
  assert (lists store_abc !! 10%positive = Some L_abc) as Hl by reflexivity.
  do 2 (split; [done || exact store_abc_members_abc|]).
  destruct (Len_counts_members store_abc 10%positive L_abc _ 3%nat
              Hl store_abc_members_abc) as [_ Hexact]; [simpl; lia|].
  apply Hexact. simpl. lia.
Defined.

Lemma Len_does_not_finish_on_a_cycle_witness :
  lists store_ring !! 10%positive
    = Some (mkList (Some 1%positive) (Some 1%positive)) ∧
  ∀ fuel, Len fuel 10%positive store_ring = OutOfFuel.
Proof.
  split; [reflexivity|].
  apply (Len_does_not_finish_on_a_cycle store_ring 10%positive
           (mkList (Some 1%positive) (Some 1%positive)) 1%positive
           [1%positive]); [reflexivity|reflexivity|concrete_dec|].
  concrete_all ltac:(eexists _, 1%positive; split; [reflexivity|];
                     split; [reflexivity|concrete_dec]).
Defined.

Lemma forward_and_backward_walks_witness :
  lists store_abc !! 10%positive = Some L_abc ∧
  members (nodes store_abc) L_abc [1%positive; 2%positive; 3%positive] ∧
  forward 3 10%positive store_abc
    = Done [1%positive; 2%positive; 3%positive] store_abc ∧
  backward 3 10%positive store_abc
    = Done [3%positive; 2%positive; 1%positive] store_abc.
Proof.
  assert (lists store_abc !! 10%positive = Some L_abc) as Hl by reflexivity.
  do 2 (split; [done || exact store_abc_members_abc|]).
  apply (forward_and_backward_walks store_abc 10%positive L_abc _ 3%nat
           Hl store_abc_members_abc). simpl. lia.
Defined.

Lemma insert_then_Remove_restores_witness :
  lists store_abc !! 10%positive = Some L_abc ∧
  members (nodes store_abc) L_abc [1%positive; 2%positive; 3%positive] ∧
  (6%positive ∉ [1%positive; 2%positive; 3%positive]) ∧
  (∃ s', (PushFront 10%positive (Some 6%positive) ;;
          Remove 10%positive (Some 6%positive)) store_abc = Done () s' ∧
     lists s' = lists store_abc ∧
     members (nodes s') L_abc [1%positive; 2%positive; 3%positive]) ∧
  (∃ s', (InsertAfter 10%positive (Some 2%positive) (Some 6%positive) ;;
          Remove 10%positive (Some 6%positive)) store_abc = Done () s' ∧
     lists s' = lists store_abc ∧
     members (nodes s') L_abc [1%positive; 2%positive; 3%positive]).
Proof.
  assert (lists store_abc !! 10%positive = Some L_abc) as Hl by reflexivity.
  assert (6%positive ∉ [1%positive; 2%positive; 3%positive]) as Hnin
    by concrete_dec.
  do 3 (split; [done || exact store_abc_members_abc|]).
  destruct (insert_then_Remove_restores store_abc 10%positive L_abc _
              6%positive Hl store_abc_members_abc)
    as ((s1 & Hrun1 & Hls1 & Hm1 & _) & _ & HAfter & _);
    [by eexists|exact Hnin|].
  split; [by exists s1|].
  destruct (HAfter 2%positive) as (s2 & Hrun2 & Hls2 & Hm2 & _);
    [concrete_dec|].
  by exists s2.
Defined.

Lemma splice_into_itself_witness :
  lists store_abc !! 10%positive = Some L_abc ∧
  members (nodes store_abc) L_abc [1%positive; 2%positive; 3%positive] ∧
  (∃ s', PushFrontList 10%positive 10%positive store_abc = Done () s' ∧
     lists s' !! 10%positive = Some zero_List ∧
     Len 3 10%positive s' = Done 0%Z s') ∧
  (∃ s', PushBackList 10%positive 10%positive store_abc = Done () s' ∧
     lists s' !! 10%positive = Some zero_List ∧
     Len 3 10%positive s' = Done 0%Z s').
Proof.
  assert (lists store_abc !! 10%positive = Some L_abc) as Hl by reflexivity.
  do 2 (split; [done || exact store_abc_members_abc|]).
  destruct (splice_into_itself store_abc 10%positive L_abc _
              Hl store_abc_members_abc)
    as [(s1 & Hrun1 & Hls1 & HLen1 & _) (s2 & Hrun2 & Hls2 & HLen2 & _)].
  split.
  - exists s1. split; [exact Hrun1|]. split; [|apply HLen1].
    rewrite Hls1. apply lookup_insert_eq.
  - exists s2. split; [exact Hrun2|]. split; [|apply HLen2].
    rewrite Hls2. apply lookup_insert_eq.
Defined.

Lemma Remove_interior_through_any_list_witness :
  lists store_abc !! 10%positive = Some L_abc ∧
  members (nodes store_abc) L_abc [1%positive; 2%positive; 3%positive] ∧
  lists store_abc !! 99%positive = None ∧
  ∃ s', Remove 99%positive (Some 2%positive) store_abc = Done () s' ∧
    lists s' = lists store_abc ∧
    members (nodes s') L_abc [1%positive; 3%positive].
Proof.
  assert (lists store_abc !! 10%positive = Some L_abc) as Hl by reflexivity.
  do 3 (split; [done || exact store_abc_members_abc|]).
  destruct (Remove_interior_through_any_list store_abc 99%positive
              10%positive L_abc [] 1%positive 2%positive 3%positive []
              Hl store_abc_members_abc)
    as (s' & Hrun & Hls & Hm' & _).
  by exists s'.
Defined.

Lemma other_lists_untouched_witness :
  lists store_abc !! 10%positive = Some L_abc ∧
  members (nodes store_abc) L_abc [1%positive; 2%positive; 3%positive] ∧
  lists store_abc !! 20%positive = Some L_de ∧
  members (nodes store_abc) L_de [4%positive; 5%positive] ∧
  (∃ s', PushBack 10%positive (Some 6%positive) store_abc = Done () s' ∧
     lists s' !! 20%positive = Some L_de ∧
     members (nodes s') L_de [4%positive; 5%positive]) ∧
  (∃ s', Remove 10%positive (Some 3%positive) store_abc = Done () s' ∧
     lists s' !! 20%positive = Some L_de ∧
     members (nodes s') L_de [4%positive; 5%positive]).
Proof.
  assert (lists store_abc !! 10%positive = Some L_abc) as Hl by reflexivity.
  assert (lists store_abc !! 20%positive = Some L_de) as Hm by reflexivity.
  do 4 (split; [done || exact store_abc_members_abc
                || exact store_abc_members_de|]).
  destruct (other_lists_untouched store_abc 10%positive 20%positive
              L_abc L_de [1%positive; 2%positive; 3%positive]
              [4%positive; 5%positive] Hl store_abc_members_abc)
    as [Hins Hrem];
    [done|exact Hm|exact store_abc_members_de|exact store_abc_disjoint|].
  split.
  - destruct (Hins 6%positive) as (_ & (s' & Hrun & Hl' & Hm' & _) & _);
      [by eexists|concrete_dec|concrete_dec|].
    by exists s'.
  - destruct (Hrem 3%positive) as (s' & Hrun & Hl' & Hm' & _);
      [concrete_dec|].
    by exists s'.
Defined.

Lemma PushFront_of_the_head_witness :
  lists store_abc !! 10%positive = Some L_abc ∧
  nodes store_abc !! 1%positive = Some (mkEntry (Some 2%positive) None) ∧
  ∃ s', PushFront 10%positive (Some 1%positive) store_abc = Done () s' ∧
    nodes s' !! 1%positive
      = Some (mkEntry (Some 1%positive) (Some 1%positive)) ∧
    (∀ fuel, Len fuel 10%positive s' = OutOfFuel).
Proof.
  assert (lists store_abc !! 10%positive = Some L_abc) as Hl by reflexivity.
  assert (nodes store_abc !! 1%positive
          = Some (mkEntry (Some 2%positive) None)) as He by reflexivity.
  do 2 (split; [done|]).
  destruct (PushFront_of_the_head store_abc 10%positive L_abc 1%positive _
              Hl eq_refl He)
    as (s' & te' & Hrun & _ & He' & Hn & Hp & _ & HLen).
  exists s'. split; [exact Hrun|]. split; [|exact HLen].
  destruct te' as [n' p']. simpl in Hn, Hp. subst n' p'. exact He'.
Defined.

Lemma pushes_at_both_ends_witness :
  lists store_fresh !! 10%positive = Some zero_List ∧
  ∃ s' L',
    push_each 10%positive
      [(true, 1%positive); (false, 2%positive); (true, 3%positive)]
      store_fresh = Done () s' ∧
    lists s' !! 10%positive = Some L' ∧
    members (nodes s') L' [3%positive; 1%positive; 2%positive] ∧
    Front 10%positive s' = Done (Some 3%positive) s' ∧
    Back 10%positive s' = Done (Some 2%positive) s'.
Proof.
  assert (lists store_fresh !! 10%positive = Some zero_List) as Hl
    by reflexivity.
  split; [done|].
  apply (pushes_at_both_ends store_fresh 10%positive
           [(true, 1%positive); (false, 2%positive); (true, 3%positive)] Hl).
  - concrete_dec.
  - concrete_all ltac:(by eexists).
Defined.

Lemma Reset_then_push_again_witness :
  lists store_abc !! 10%positive = Some L_abc ∧
  ∃ s' L',
    (Reset 10%positive ;;
     push_all 10%positive [3%positive; 1%positive; 2%positive]) store_abc
      = Done () s' ∧
    lists s' !! 10%positive = Some L' ∧
    members (nodes s') L' [3%positive; 1%positive; 2%positive] ∧
    (∀ fuel, (3 ≤ fuel)%nat →
       forward fuel 10%positive s'
         = Done [3%positive; 1%positive; 2%positive] s').
Proof.
  assert (lists store_abc !! 10%positive = Some L_abc) as Hl by reflexivity.
  split; [done|].
  apply (Reset_then_push_again store_abc 10%positive L_abc
           [3%positive; 1%positive; 2%positive] Hl).
  - concrete_dec.
  - concrete_all ltac:(by eexists).
Defined.

Lemma queries_on_valid_list_witness :
  lists store_abc !! 10%positive = Some L_abc ∧
  members (nodes store_abc) L_abc [1%positive; 2%positive; 3%positive] ∧
  Empty 10%positive store_abc = Done false store_abc ∧
  Front 10%positive store_abc = Done (Some 1%positive) store_abc ∧
  Back 10%positive store_abc = Done (Some 3%positive) store_abc.
Proof.
  assert (lists store_abc !! 10%positive = Some L_abc) as Hl by reflexivity.
  do 2 (split; [done || exact store_abc_members_abc|]).
  exact (queries_on_valid_list store_abc 10%positive L_abc _
           Hl store_abc_members_abc).
Defined.

Lemma Remove_twice_witness :
  lists store_abc !! 10%positive = Some L_abc ∧
  members (nodes store_abc) L_abc [1%positive; 2%positive; 3%positive] ∧
  ∃ s1 s2 L1,
    Remove 10%positive (Some 1%positive) store_abc = Done () s1 ∧
    Remove 10%positive (Some 1%positive) s1 = Done () s2 ∧
    lists s2 = lists s1 ∧ lists s1 !! 10%positive = Some L1 ∧
    members (nodes s2) L1 [2%positive; 3%positive].
Proof.
  assert (lists store_abc !! 10%positive = Some L_abc) as Hl by reflexivity.
  do 2 (split; [done || exact store_abc_members_abc|]).
  destruct (Remove_twice store_abc 10%positive L_abc _ 1%positive
              Hl store_abc_members_abc)
    as (s1 & s2 & L1 & xs1 & xs2 & Hrun1 & Hrun2 & Hxs & Hls & Hl1 & Hm2 & _);
    [concrete_dec|].
  exists s1, s2, L1. do 4 (split; [done|]).
  assert (xs1 = [] ∧ xs2 = [2%positive; 3%positive]) as [-> ->].
  { destruct xs1 as [|x1 [|x2 [|x3 xs1]]]; simplify_eq/=; try done.
    destruct xs1; simplify_eq/=. }
  exact Hm2.
Defined.

Lemma PushBackList_mirrors_PushFrontList_witness :
  20%positive ≠ 10%positive ∧
  lists store_abc !! 10%positive = Some L_abc ∧
  lists store_abc !! 20%positive = Some L_de ∧
  members (nodes store_abc) L_abc [1%positive; 2%positive; 3%positive] ∧
  members (nodes store_abc) L_de [4%positive; 5%positive] ∧
  ∃ s1 s2 L',
    PushBackList 10%positive 20%positive store_abc = Done () s1 ∧
    PushFrontList 20%positive 10%positive store_abc = Done () s2 ∧
    nodes s1 = nodes s2 ∧
    lists s1 !! 10%positive = Some L' ∧ lists s2 !! 20%positive = Some L' ∧
    members (nodes s1) L'
      [1%positive; 2%positive; 3%positive; 4%positive; 5%positive].
Proof.
  assert (20%positive ≠ 10%positive) as Hne by done.
  assert (lists store_abc !! 10%positive = Some L_abc) as Hl by reflexivity.
  assert (lists store_abc !! 20%positive = Some L_de) as Hm by reflexivity.
  do 5 (split; [done || exact store_abc_members_abc
                || exact store_abc_members_de|]).
  destruct (PushBackList_mirrors_PushFrontList store_abc 10%positive
              20%positive L_abc L_de _ _ Hne Hl Hm store_abc_members_abc
              store_abc_members_de store_abc_disjoint)
    as (s1 & s2 & L' & Hrun1 & Hrun2 & Hnodes & Hls1 & Hls2 & Hm').
  exists s1, s2, L'. do 3 (split; [done|]).
  split; [|split; [|exact Hm']].
  - rewrite Hls1. rewrite lookup_insert_ne by done. apply lookup_insert_eq.
  - rewrite Hls2. rewrite lookup_insert_ne by done. apply lookup_insert_eq.
Defined.

Lemma Entry_set_then_get_witness :
  nodes store_abc !! 6%positive
    = Some (mkEntry (Some 1%positive) (Some 3%positive)) ∧
  (∃ s', (call_SetNext (Some 6%positive) (Some 4%positive) ;;
          call_Next (Some 6%positive)) store_abc
           = Done (Some 4%positive) s' ∧
     (call_SetNext (Some 6%positive) (Some 4%positive) ;;
      call_Prev (Some 6%positive)) store_abc
       = Done (Some 3%positive) s') ∧
  (∃ s', (call_SetPrev (Some 6%positive) None ;;
          call_Prev (Some 6%positive)) store_abc = Done None s' ∧
     (call_SetPrev (Some 6%positive) None ;;
      call_Next (Some 6%positive)) store_abc
       = Done (Some 1%positive) s').
Proof.
  assert (nodes store_abc !! 6%positive
          = Some (mkEntry (Some 1%positive) (Some 3%positive))) as He
    by reflexivity.
  split; [exact He|].
  split.
  - destruct (Entry_set_then_get store_abc 6%positive _ (Some 4%positive) He)
      as [(s' & Hn & Hp & _) _].
    by exists s'.
  - destruct (Entry_set_then_get store_abc 6%positive _ None He)
      as [_ (s' & Hp & Hn & _)].
    by exists s'.
Defined.
